(** * The cork keeper of the sommelier chain: commitments, tally, genesis

    A shallow embedding of [x/cork/keeper/keeper.go] and
    [x/cork/keeper/genesis.go].  The module's key-value store is a finite
    map from byte strings to byte strings, iterated in ascending key order;
    Go panics are the [Panic] results of a small error monad; machine
    integers are [Z] with their wrap-around written out. *)

From Stdlib Require Import ZArith QArith Lia Ascii String.
From stdpp Require Import base option list sorting gmap strings.

Local Open Scope Z_scope.

(** ** Results of code that may panic *)

Inductive result (A : Type) : Type :=
| Ok (a : A)
| Panic (msg : string).
Arguments Ok {A} a.
Arguments Panic {A} msg.

Global Instance result_ret : MRet result := λ A a, Ok a.
Global Instance result_bind : MBind result := λ A B f m,
  match m with
  | Ok a => f a
  | Panic msg => Panic msg
  end.

Definition returns {A} (m : result A) : Prop := ∃ a, m = Ok a.
Definition panics {A} (m : result A) : Prop := ∃ msg, m = Panic msg.

(** ** Bytes and machine integers *)

(** A byte is an integer in [0, 256); a Go [[]byte] is a list of them. *)
Definition bytes := list Z.

Definition is_byte (b : Z) : Prop := 0 ≤ b < 256.
Definition is_bytes (bz : bytes) : Prop := Forall is_byte bz.

(** Conversions [uint64(x)] and [int64(x)]. *)
Definition uint64 (x : Z) : Z := x mod 2 ^ 64.
Definition int64 (x : Z) : Z := (x + 2 ^ 63) mod 2 ^ 64 - 2 ^ 63.

Definition is_uint64 (x : Z) : Prop := 0 ≤ x < 2 ^ 64.
Definition is_int64 (x : Z) : Prop := - 2 ^ 63 ≤ x < 2 ^ 63.

Module gobytes.

(** [bytes.HasPrefix] *)
Fixpoint HasPrefix (s pfx : bytes) {struct pfx} : bool :=
  match pfx, s with
  | [], _ => true
  | p :: pfx', b :: s' => (b =? p) && HasPrefix s' pfx'
  | _ :: _, [] => false
  end.

(** [bytes.TrimPrefix]: [s] without the leading [pfx], or [s] itself. *)
Definition TrimPrefix (s pfx : bytes) : bytes :=
  if HasPrefix s pfx then drop (length pfx) s else s.

(** [bytes.Compare], the lexicographic order of the store's keys. *)
Fixpoint Compare (a b : bytes) : comparison :=
  match a, b with
  | [], [] => Eq
  | [], _ :: _ => Lt
  | _ :: _, [] => Gt
  | x :: a', y :: b' =>
      match x ?= y with
      | Eq => Compare a' b'
      | c => c
      end
  end.

(** [bytes.Equal] *)
Definition Equal (a b : bytes) : bool := bool_decide (a = b).

End gobytes.

(** ** encoding/hex *)

Module hex.

Definition fromHexChar (c : ascii) : option Z :=
  let n := Z.of_nat (nat_of_ascii c) in
  if (48 <=? n) && (n <=? 57) then Some (n - 48)
  else if (97 <=? n) && (n <=? 102) then Some (n - 97 + 10)
  else if (65 <=? n) && (n <=? 70) then Some (n - 65 + 10)
  else None.

(** [hex.DecodeString]: the bytes decoded before the first error, and
    whether an error (bad digit or odd length) occurred. *)
Fixpoint Decode (src : list ascii) : bytes * bool :=
  match src with
  | [] => ([], false)
  | [_] => ([], true)
  | a :: b :: rest =>
      match fromHexChar a, fromHexChar b with
      | Some x, Some y =>
          let '(bz, err) := Decode rest in
          (Z.lor (Z.shiftl x 4) y :: bz, err)
      | _, _ => ([], true)
      end
  end.

Definition DecodeString (s : string) : bytes * bool :=
  Decode (list_ascii_of_string s).

End hex.

(** ** go-ethereum/common *)

Module common.

Definition AddressLength : nat := 20.

(** A [common.Address] is a [[20]byte]. *)
Definition Address := bytes.

(** [BytesToAddress]: keep the last 20 bytes, left-pad with zeros. *)
Definition BytesToAddress (b : bytes) : Address :=
  let b := if (AddressLength <? length b)%nat
           then drop (length b - AddressLength) b else b in
  replicate (AddressLength - length b) 0 ++ b.

Definition has0xPrefix (s : list ascii) : bool :=
  match s with
  | a :: b :: _ =>
      bool_decide (a = "0"%char) &&
      (bool_decide (b = "x"%char) || bool_decide (b = "X"%char))
  | _ => false
  end.

Definition FromHex (s : string) : bytes :=
  let s := list_ascii_of_string s in
  let s := if has0xPrefix s then drop 2 s else s in
  let s := if Nat.odd (length s) then "0"%char :: s else s in
  (hex.Decode s).1.

Definition HexToAddress (s : string) : Address :=
  BytesToAddress (FromHex s).

End common.

(** ** cosmos-sdk/types *)

Module sdk.

(** A validator operator address, a [[]byte]. *)
Definition ValAddress := bytes.

(** [ValAddressFromHex]: the decoded bytes and whether decoding failed. *)
Definition ValAddressFromHex (address : string) : ValAddress * bool :=
  if bool_decide (address = "") then ([], true)
  else hex.DecodeString address.

Definition byte_at (i : Z) (shift : Z) : Z := Z.land (Z.shiftr i shift) 255.

Definition Uint64ToBigEndian (i : Z) : bytes :=
  [byte_at i 56; byte_at i 48; byte_at i 40; byte_at i 32;
   byte_at i 24; byte_at i 16; byte_at i 8; byte_at i 0].

(** [BigEndianToUint64]: zero for an empty slice; [binary.BigEndian.Uint64]
    reads the first eight bytes and panics on a shorter slice. *)
Definition BigEndianToUint64 (bz : bytes) : result Z :=
  match bz with
  | [] => Ok 0
  | b0 :: b1 :: b2 :: b3 :: b4 :: b5 :: b6 :: b7 :: _ =>
      Ok (Z.lor b7 (Z.lor (Z.shiftl b6 8) (Z.lor (Z.shiftl b5 16)
         (Z.lor (Z.shiftl b4 24) (Z.lor (Z.shiftl b3 32)
         (Z.lor (Z.shiftl b2 40) (Z.lor (Z.shiftl b1 48)
                (Z.shiftl b0 56))))))))
  | _ => Panic "index out of range"
  end.

(** *** sdk.Dec: fixed-point decimals with 18 fractional digits.
    A [Dec] is the big integer counting units of 10^-18. *)
Definition Dec := Z.

Definition precisionReuse : Z := 1000000000000000000.
Definition fivePrecision : Z := 500000000000000000.
Definition maxDecBitLen : Z := 315.

Definition NewDec (i : Z) : Dec := i * precisionReuse.

(** [sdk.Int.ToDec] *)
Definition ToDec (i : Z) : Dec := i * precisionReuse.

(** [big.Int.BitLen]: the length of the absolute value in bits. *)
Definition BitLen (x : Z) : Z :=
  if x =? 0 then 0 else Z.log2 (Z.abs x) + 1.

(** Remove 18 digits from a non-negative integer, rounding half to even. *)
Definition chopPositive (d : Z) : Z :=
  let quo := Z.quot d precisionReuse in
  let rem := Z.rem d precisionReuse in
  if rem =? 0 then quo
  else match rem ?= fivePrecision with
       | Lt => quo
       | Gt => quo + 1
       | Eq => if Z.even quo then quo else quo + 1
       end.

Definition chopPrecisionAndRound (d : Z) : Z :=
  if d <? 0 then - chopPositive (- d) else chopPositive d.

(** [Dec.Quo]: the quotient with 36 fractional digits, truncated toward
    zero, is rounded to 18 digits. *)
Definition Quo (d d2 : Dec) : result Dec :=
  let mul := d * precisionReuse * precisionReuse in
  if d2 =? 0 then Panic "division by zero"
  else
    let quo := Z.quot mul d2 in
    let chopped := chopPrecisionAndRound quo in
    if BitLen chopped >? maxDecBitLen then Panic "Int overflow"
    else Ok chopped.

Definition GT (d d2 : Dec) : bool := d >? d2.

(** The rational number a [Dec] stands for. *)
Definition Dec_to_Q (d : Dec) : Q := Qmake d (Z.to_pos precisionReuse).

End sdk.

(** ** x/cork/types *)

Module types.

(** A commitment: the target contract (hex string) and the call body. *)
Record Cork := { Address : string; Body : bytes }.

Global Instance Cork_eq_dec : EqDecision Cork.
Proof. solve_decision. Defined.

(** [types.Cork{}] *)
Definition emptyCork : Cork := {| Address := ""; Body := [] |}.

(** Modelled from the spec: [Cork.Equals] (types/cork.go) is not among the
    sources.  Two commitments are equal when their 20-byte target
    addresses and their payloads are equal. *)
Definition Equals (c other : Cork) : bool :=
  bool_decide (common.HexToAddress (Address c) =
               common.HexToAddress (Address other))
  && gobytes.Equal (Body c) (Body other).

(** Modelled from the spec: the one-byte entity prefixes of types/keys.go
    (not among the sources); only their being pairwise distinct is used. *)
Definition CorkForAddressKeyPrefix : Z := 1.
Definition CommitPeriodStartKey : Z := 2.
Definition LatestInvalidationNonceKey : Z := 3.
Definition CellarIDsKey : Z := 4.
Definition ScheduledCorkKeyPrefix : Z := 5.

(** Modelled from the spec: the persisted key layout
    [prefix || voterID || targetAddress] of a pending commitment. *)
Definition GetCorkValidatorKeyPrefix (val : sdk.ValAddress) : bytes :=
  [CorkForAddressKeyPrefix] ++ val.

Definition GetCorkForValidatorAddressKey
    (val : sdk.ValAddress) (contract : common.Address) : bytes :=
  GetCorkValidatorKeyPrefix val ++ contract.

(** Modelled from the spec: a scheduled commitment is keyed by
    (execution height, voter) under a prefix of its own; the height is
    written as eight big-endian bytes. *)
Definition GetScheduledCorkKey (blockHeight : Z) (val : sdk.ValAddress) : bytes :=
  [ScheduledCorkKeyPrefix] ++ sdk.Uint64ToBigEndian blockHeight ++ val.

(** Modelled from the spec: the module parameters (types/params.go is not
    among the sources): the length of a voting window and the quorum
    fraction. *)
Record Params := { VotePeriod : Z; VoteThreshold : sdk.Dec }.

Record CellarIDSet := { Ids : list string }.

(** Entries of the genesis document.  The commitment of an entry is a
    pointer in the source, [None] is the nil pointer. *)
Record ValidatorCork := { vcValidator : string; vcCork : option Cork }.

Record ScheduledCork :=
  { scValidator : string; scBlockHeight : Z; scCork : option Cork }.

Record GenesisState := {
  gsParams : Params;
  CellarIds : CellarIDSet;
  InvalidationNonce : Z;
  Corks : list ValidatorCork;
  ScheduledCorks : list ScheduledCork;
}.

(** The staking keeper the tally consults.  Its methods read the staking
    module's own state, which the cork keeper never writes. *)
Record ValidatorI := { GetConsensusPower : Z → Z }.

Record StakingKeeper := {
  GetLastTotalPower : Z;
  Validator : sdk.ValAddress → option ValidatorI;
  PowerReduction : Z;
}.

End types.

(** ** The execution context and the keeper *)

(** [codec.BinaryCodec], at the two message types the keeper stores. *)
Record BinaryCodec := {
  MustMarshal : types.Cork → bytes;
  MustUnmarshal : bytes → result types.Cork;
  MustMarshalIDs : types.CellarIDSet → bytes;
  MustUnmarshalIDs : bytes → result types.CellarIDSet;
}.

Record Keeper := {
  cdc : BinaryCodec;
  stakingKeeper : types.StakingKeeper;
}.

(** What the keeper sees of an [sdk.Context]: its own key-value store, its
    parameter subspace and the height of the block being executed. *)
Record Context := {
  KVStore : gmap bytes bytes;
  paramSpace : option types.Params;
  BlockHeight : Z;
}.

Definition withStore (ctx : Context) (m : gmap bytes bytes) : Context :=
  {| KVStore := m; paramSpace := paramSpace ctx; BlockHeight := BlockHeight ctx |}.

Definition KVSet (ctx : Context) (key value : bytes) : Context :=
  withStore ctx (<[key := value]> (KVStore ctx)).

(** [store.Get] answers nil for an absent key. *)
Definition KVGet (ctx : Context) (key : bytes) : bytes :=
  default [] (KVStore ctx !! key).

Definition KVDelete (ctx : Context) (key : bytes) : Context :=
  withStore ctx (delete key (KVStore ctx)).

Definition KVHas (ctx : Context) (key : bytes) : bool :=
  bool_decide (is_Some (KVStore ctx !! key)).

(** The order of iteration: ascending [bytes.Compare] of the keys. *)
Definition key_le (a b : bytes * bytes) : Prop :=
  gobytes.Compare a.1 b.1 ≠ Gt.

Global Instance key_le_dec a b : Decision (key_le a b).
Proof. unfold key_le. apply _. Defined.

(** [sdk.KVStorePrefixIterator]: the entries whose key starts with [pfx], as
    they stand when the iterator is opened, in ascending key order. *)
Definition KVStorePrefixIterator (ctx : Context) (pfx : bytes) : list (bytes * bytes) :=
  merge_sort key_le
    (filter (λ kv, gobytes.HasPrefix kv.1 pfx = true) (map_to_list (KVStore ctx))).

(** A monadic [for ... range] loop. *)
Fixpoint forEach {A S} (body : S → A → result S) (l : list A) (s : S) : result S :=
  match l with
  | [] => Ok s
  | x :: l' => s' ← body s x; forEach body l' s'
  end.

(** *** MsgSubmitCork *)

Definition SetCork (k : Keeper) (ctx : Context) (val : sdk.ValAddress) (cork : types.Cork) : Context :=
  let bz := MustMarshal (cdc k) cork in
  KVSet ctx (types.GetCorkForValidatorAddressKey val
               (common.HexToAddress (types.Address cork))) bz.

Definition GetCork (k : Keeper) (ctx : Context) (val : sdk.ValAddress) (cel : common.Address)
  : result (types.Cork * bool) :=
  let bz := KVGet ctx (types.GetCorkForValidatorAddressKey val cel) in
  if bool_decide (length bz = 0%nat) then Ok (types.emptyCork, false)
  else cork ← MustUnmarshal (cdc k) bz; Ok (cork, true).

Definition DeleteCork (k : Keeper) (ctx : Context) (val : sdk.ValAddress) (cel : common.Address) : Context :=
  KVDelete ctx (types.GetCorkForValidatorAddressKey val cel).

Definition HasCorkForContract (k : Keeper) (ctx : Context) (val : sdk.ValAddress) (contract : common.Address) : bool :=
  KVHas ctx (types.GetCorkForValidatorAddressKey val contract).

Definition HasCork (k : Keeper) (ctx : Context) (val : sdk.ValAddress) : bool :=
  match KVStorePrefixIterator ctx (types.GetCorkValidatorKeyPrefix val) with
  | [] => false
  | _ :: _ => true
  end.

(** The loop of [IterateCorks] over an opened iterator: split the key into
    the voter (the first 20 bytes after the prefix) and the target (the
    rest), decode the value, call the handler, stop when it says so.

    The iterator runs over the store itself while the handler writes to it:
    [iter] lists the entries in place when the iterator was opened, and an
    entry the handler has deleted before the iterator reaches it is passed
    over.  So the handler is given the context and returns it; its other
    captured variables are the state [S]. *)
Fixpoint iterateCorksLoop {S} (k : Keeper)
    (handler : sdk.ValAddress → common.Address → types.Cork →
               Context → S → result (Context * S * bool))
    (iter : list (bytes * bytes)) (ctx : Context) (s : S) : result (Context * S) :=
  match iter with
  | [] => Ok (ctx, s)
  | (key, _) :: rest =>
      match KVStore ctx !! key with
      | None => iterateCorksLoop k handler rest ctx s
      | Some value =>
          let keyPair := gobytes.TrimPrefix key [types.CorkForAddressKeyPrefix] in
          let val := take 20 keyPair in
          let cel := common.BytesToAddress (drop 20 keyPair) in
          cork ← MustUnmarshal (cdc k) value;
          '(ctx', s', stop) ← handler val cel cork ctx s;
          if stop : bool then Ok (ctx', s') else iterateCorksLoop k handler rest ctx' s'
      end
  end.

Definition IterateCorks {S} (k : Keeper) (ctx : Context)
    (handler : sdk.ValAddress → common.Address → types.Cork →
               Context → S → result (Context * S * bool))
    (s : S) : result (Context * S) :=
  iterateCorksLoop k handler
    (KVStorePrefixIterator ctx [types.CorkForAddressKeyPrefix]) ctx s.

(** The loop of [IterateCorkAddresses]; [seenAddresses] is the set of the
    targets already handed to the handler.  The handler's captured
    variables are the state [S]; it is given no access to the store, so the
    entries are those in place when the iterator was opened. *)
Fixpoint iterateCorkAddressesLoop {S}
    (handler : common.Address → S → S * bool)
    (iter : list (bytes * bytes)) (seenAddresses : gset bytes) (s : S) : S :=
  match iter with
  | [] => s
  | (key, _) :: rest =>
      let keyPair := gobytes.TrimPrefix key [types.CorkForAddressKeyPrefix] in
      let address := common.BytesToAddress (drop 20 keyPair) in
      if bool_decide (address ∈ seenAddresses)
      then iterateCorkAddressesLoop handler rest seenAddresses s
      else
        let seenAddresses := {[address]} ∪ seenAddresses in
        let '(s', stop) := handler address s in
        if stop : bool then s'
        else iterateCorkAddressesLoop handler rest seenAddresses s'
  end.

Definition IterateCorkAddresses {S} (k : Keeper) (ctx : Context)
    (handler : common.Address → S → S * bool) (s : S) : S :=
  iterateCorkAddressesLoop handler
    (KVStorePrefixIterator ctx [types.CorkForAddressKeyPrefix]) ∅ s.

(** *** CommitPeriod *)

Definition SetCommitPeriodStart (k : Keeper) (ctx : Context) (height : Z) : Context :=
  KVSet ctx [types.CommitPeriodStartKey] (sdk.Uint64ToBigEndian (uint64 height)).

Definition GetCommitPeriodStart (k : Keeper) (ctx : Context) : result (Z * bool) :=
  let bz := KVGet ctx [types.CommitPeriodStartKey] in
  if bool_decide (length bz = 0%nat) then Ok (0, false)
  else n ← sdk.BigEndianToUint64 bz; Ok (int64 n, true).

Definition HasCommitPeriodStart (k : Keeper) (ctx : Context) : bool :=
  KVHas ctx [types.CommitPeriodStartKey].

(** *** Params *)


Definition setParams (k : Keeper) (ctx : Context) (params : types.Params) : Context :=
  {| KVStore := KVStore ctx; paramSpace := Some params; BlockHeight := BlockHeight ctx |}.

(** *** Invalidation nonces *)

Definition GetLatestInvalidationNonce (k : Keeper) (ctx : Context) : result Z :=
  let bz := KVGet ctx [types.LatestInvalidationNonceKey] in
  sdk.BigEndianToUint64 bz.

Definition SetLatestInvalidationNonce (k : Keeper) (ctx : Context) (invalidationNonce : Z) : Context :=
  KVSet ctx [types.LatestInvalidationNonceKey] (sdk.Uint64ToBigEndian invalidationNonce).

Definition IncrementInvalidationNonce (k : Keeper) (ctx : Context) : result (Z * Context) :=
  n ← GetLatestInvalidationNonce k ctx;
  let nextNonce := uint64 (n + 1) in
  Ok (nextNonce,
      KVSet ctx [types.LatestInvalidationNonceKey] (sdk.Uint64ToBigEndian nextNonce)).

(** *** Votes *)

(** The range loop over [corks] inside the tally handler: add the power to
    the first group equal to [cork], or open a new group. *)
Definition countVote (corks : list types.Cork) (corkPowers : list Z)
    (cork : types.Cork) (validatorPower : Z) : result (list types.Cork * list Z) :=
  match list_find (λ rv, types.Equals rv cork = true) corks with
  | Some (i, _) =>
      match corkPowers !! i with
      | Some p => Ok (corks, <[i := int64 (p + validatorPower)]> corkPowers)
      | None => Panic "index out of range"
      end
  | None => Ok (corks ++ [cork], corkPowers ++ [validatorPower])
  end.

(** The closure handed to [IterateCorks]; it captures [ctx], [corks] and
    [corkPowers], and deletes the entry rebuilt from the voter and the
    target it is called with.  A voter the staking keeper does not know is
    a nil interface, and calling a method on it panics. *)
Definition tallyHandler (k : Keeper)
    (val : sdk.ValAddress) (addr : common.Address) (cork : types.Cork)
    (ctx : Context) (s : list types.Cork * list Z)
  : result (Context * (list types.Cork * list Z) * bool) :=
  let '(corks, corkPowers) := s in
  match types.Validator (stakingKeeper k) val with
  | None => Panic "nil pointer dereference"
  | Some validator =>
      let validatorPower :=
        int64 (types.GetConsensusPower validator
                 (types.PowerReduction (stakingKeeper k))) in
      '(corks, corkPowers) ← countVote corks corkPowers cork validatorPower;
      Ok (DeleteCork k ctx val addr, (corks, corkPowers), false)
  end.

(** The range loop over [corkPowers] that picks the winners. *)
Fixpoint quorumLoop (totalPower : Z) (threshold : sdk.Dec)
    (corks : list types.Cork) (i : nat) (corkPowers : list Z)
    (winningCorks : list types.Cork) : result (list types.Cork) :=
  match corkPowers with
  | [] => Ok winningCorks
  | power :: rest =>
      ratio ← sdk.Quo (sdk.NewDec power) (sdk.ToDec totalPower);
      let quorumReached := sdk.GT ratio threshold in
      winningCorks ←
        (if quorumReached then
           match corks !! i with
           | Some c => Ok (winningCorks ++ [c])
           | None => Panic "index out of range"
           end
         else Ok winningCorks);
      quorumLoop totalPower threshold corks (S i) rest winningCorks
  end.

Definition GetWinningVotes (k : Keeper) (ctx : Context) (threshold : sdk.Dec)
  : result (list types.Cork * Context) :=
  let totalPower := types.GetLastTotalPower (stakingKeeper k) in
  '(ctx, (corks, corkPowers)) ← IterateCorks k ctx (tallyHandler k) ([], []);
  winningCorks ← quorumLoop totalPower threshold corks 0 corkPowers [];
  Ok (winningCorks, ctx).

(** *** The whitelist and the scheduler *)

(** Modelled from the spec: [SetCellarIDs] and [GetCellarIDs] are not among
    the sources.  The whitelist of target addresses is kept as one record
    under a fixed key. *)
Definition SetCellarIDs (k : Keeper) (ctx : Context) (c : types.CellarIDSet) : Context :=
  KVSet ctx [types.CellarIDsKey] (MustMarshalIDs (cdc k) c).


(** Modelled from the spec: [SetScheduledCork] and [GetScheduledCork] are
    not among the sources.  The scheduler is a durable map from
    (height, voter) to a commitment. *)
Definition SetScheduledCork (k : Keeper) (ctx : Context) (blockHeight : Z)
    (val : sdk.ValAddress) (cork : types.Cork) : Context :=
  KVSet ctx (types.GetScheduledCorkKey blockHeight val) (MustMarshal (cdc k) cork).

Definition GetScheduledCork (k : Keeper) (ctx : Context) (blockHeight : Z)
    (val : sdk.ValAddress) : result (types.Cork * bool) :=
  let bz := KVGet ctx (types.GetScheduledCorkKey blockHeight val) in
  if bool_decide (length bz = 0%nat) then Ok (types.emptyCork, false)
  else cork ← MustUnmarshal (cdc k) bz; Ok (cork, true).

(** *** Genesis *)

Definition importCork (k : Keeper) (ctx : Context) (validatorCork : types.ValidatorCork)
  : result Context :=
  let '(valAddr, err) := sdk.ValAddressFromHex (types.vcValidator validatorCork) in
  if err : bool then Panic "invalid validator address"
  else
    match types.vcCork validatorCork with
    | None => Panic "nil pointer dereference"
    | Some cork => Ok (SetCork k ctx valAddr cork)
    end.

Definition importScheduledCork (k : Keeper) (ctx : Context)
    (scheduledCork : types.ScheduledCork) : result Context :=
  let '(valAddr, err) := sdk.ValAddressFromHex (types.scValidator scheduledCork) in
  if err : bool then Panic "invalid validator address"
  else
    match types.scCork scheduledCork with
    | None => Panic "nil pointer dereference"
    | Some cork =>
        Ok (SetScheduledCork k ctx (types.scBlockHeight scheduledCork) valAddr cork)
    end.

Definition InitGenesis (ctx : Context) (k : Keeper) (gs : types.GenesisState)
  : result Context :=
  let ctx := setParams k ctx (types.gsParams gs) in
  let ctx := SetCommitPeriodStart k ctx (BlockHeight ctx) in
  let ctx := SetCellarIDs k ctx (types.CellarIds gs) in
  let ctx := SetLatestInvalidationNonce k ctx (types.InvalidationNonce gs) in
  ctx ← forEach (importCork k) (types.Corks gs) ctx;
  forEach (importScheduledCork k) (types.ScheduledCorks gs) ctx.

(** * Properties *)

(** ** Machine integers and the big-endian encoding *)

Section integers.

Lemma int64_uint64 (h : Z) : is_int64 h → int64 (uint64 h) = h.
Proof.
  unfold is_int64, int64, uint64. intros Hh.
  destruct (Z_lt_dec h 0) as [Hneg|Hpos].
  - replace (h mod 2 ^ 64) with (h + 2 ^ 64)
      by (apply Z.mod_unique with (-1); lia).
    replace ((h + 2 ^ 64 + 2 ^ 63) mod 2 ^ 64) with (h + 2 ^ 63)
      by (apply Z.mod_unique with 1; lia).
    lia.
  - rewrite (Z.mod_small h) by lia. rewrite Z.mod_small by lia. lia.
Qed.

Lemma int64_small (x : Z) : is_int64 x → int64 x = x.
Proof. unfold is_int64, int64. intros Hx. rewrite Z.mod_small by lia. lia. Qed.

Lemma int64_range (x : Z) : is_int64 (int64 x).
Proof.
  unfold is_int64, int64.
  pose proof (Z.mod_pos_bound (x + 2 ^ 63) (2 ^ 64) ltac:(lia)). lia.
Qed.

Lemma int64_add_l (a b : Z) : int64 (int64 a + b) = int64 (a + b).
Proof.
  unfold int64. f_equal.
  replace (((a + 2 ^ 63) mod 2 ^ 64 - 2 ^ 63) + b + 2 ^ 63)
    with ((a + 2 ^ 63) mod 2 ^ 64 + b) by lia.
  rewrite Zplus_mod_idemp_l. f_equal. lia.
Qed.

Lemma uint64_small (x : Z) : is_uint64 x → uint64 x = x.
Proof. unfold is_uint64, uint64. intros. by rewrite Z.mod_small. Qed.

Lemma uint64_range (x : Z) : is_uint64 (uint64 x).
Proof. unfold is_uint64, uint64. apply Z.mod_pos_bound. lia. Qed.

Lemma testbit_byte_at (n s i : Z) :
  0 ≤ s → 0 ≤ i →
  Z.testbit (Z.shiftl (sdk.byte_at n s) s) i
  = Z.testbit n i && (s <=? i) && (i <? s + 8).
Proof.
  intros Hs Hi. unfold sdk.byte_at. rewrite Z.shiftl_spec by lia.
  destruct (Z.leb_spec s i) as [Hle|Hlt].
  - rewrite Z.land_spec, Z.shiftr_spec by lia.
    change 255 with (Z.ones 8). rewrite Z.testbit_ones by lia.
    replace (i - s + s) with i by lia.
    destruct (Z.leb_spec 0 (i - s)); [|lia].
    destruct (Z.ltb_spec (i - s) 8), (Z.ltb_spec i (s + 8)); try lia;
      by rewrite ?andb_true_r, ?andb_false_r.
  - rewrite Z.testbit_neg_r by lia. by rewrite andb_false_r.
Qed.

Lemma testbit_uint64_high (n i : Z) : is_uint64 n → 64 ≤ i → Z.testbit n i = false.
Proof.
  intros [Hn0 Hn] Hi. destruct (decide (n = 0)) as [->|Hne].
  - apply Z.testbit_0_l.
  - apply Z.bits_above_log2; [lia|].
    assert (Z.log2 n < 64) by (apply Z.log2_lt_pow2; lia). lia.
Qed.

(** Reading back the eight bytes written for an unsigned 64-bit value. *)
Lemma BigEndian_roundtrip (n : Z) :
  is_uint64 n → sdk.BigEndianToUint64 (sdk.Uint64ToBigEndian n) = Ok n.
Proof.
  intros Hn. unfold sdk.Uint64ToBigEndian, sdk.BigEndianToUint64. f_equal.
  rewrite <- (Z.shiftl_0_r (sdk.byte_at n 0)).
  apply Z.bits_inj'. intros i Hi.
  rewrite !Z.lor_spec, !testbit_byte_at by lia.
  destruct (Z_lt_dec i 64) as [Hlt|Hge].
  - assert (0 ≤ i < 8 ∨ 8 ≤ i < 16 ∨ 16 ≤ i < 24 ∨ 24 ≤ i < 32 ∨ 32 ≤ i < 40
            ∨ 40 ≤ i < 48 ∨ 48 ≤ i < 56 ∨ 56 ≤ i < 64) as Hrange by lia.
    destruct (Z.testbit n i); [|done]. cbn [andb].
    decompose [or] Hrange; clear Hrange;
      repeat match goal with
             | |- context [?a <=? ?b] =>
                 first [ rewrite (proj2 (Z.leb_le a b)) by lia
                       | rewrite (proj2 (Z.leb_gt a b)) by lia ]
             | |- context [?a <? ?b] =>
                 first [ rewrite (proj2 (Z.ltb_lt a b)) by lia
                       | rewrite (proj2 (Z.ltb_ge a b)) by lia ]
             end; reflexivity.
  - rewrite testbit_uint64_high by (done || lia). done.
Qed.

Lemma Uint64ToBigEndian_length (n : Z) : length (sdk.Uint64ToBigEndian n) = 8%nat.
Proof. done. Qed.

End integers.

(** ** Keys of the store *)

(** The voter and the target that the iteration loops read back from a
    key of a pending commitment. *)
Definition keyVoter (key : bytes) : sdk.ValAddress :=
  take 20 (gobytes.TrimPrefix key [types.CorkForAddressKeyPrefix]).

Definition keyTarget (key : bytes) : common.Address :=
  common.BytesToAddress (drop 20 (gobytes.TrimPrefix key [types.CorkForAddressKeyPrefix])).

Definition isCorkKey (key : bytes) : Prop :=
  gobytes.HasPrefix key [types.CorkForAddressKeyPrefix] = true.

Lemma HasPrefix_singleton (key : bytes) (p : Z) :
  gobytes.HasPrefix key [p] = true ↔ ∃ rest, key = p :: rest.
Proof.
  destruct key as [|b rest]; simpl.
  - split; [done|]. by intros [? ?].
  - rewrite andb_true_r, Z.eqb_eq. split.
    + intros ->. by exists rest.
    + intros [? [= -> _]]. done.
Qed.

Lemma HasPrefix_app (pfx rest : bytes) : gobytes.HasPrefix (pfx ++ rest) pfx = true.
Proof. induction pfx as [|p pfx IH]; simpl; [done|]. by rewrite Z.eqb_refl. Qed.

Lemma cork_key_isCorkKey (val : sdk.ValAddress) (addr : common.Address) :
  isCorkKey (types.GetCorkForValidatorAddressKey val addr).
Proof. done. Qed.

Lemma cork_key_inj_target (val : sdk.ValAddress) (a1 a2 : common.Address) :
  types.GetCorkForValidatorAddressKey val a1 = types.GetCorkForValidatorAddressKey val a2 →
  a1 = a2.
Proof.
  unfold types.GetCorkForValidatorAddressKey. intros H. by apply app_inv_head in H.
Qed.


Lemma BytesToAddress_length (b : bytes) : length (common.BytesToAddress b) = 20%nat.
Proof.
  unfold common.BytesToAddress, common.AddressLength.
  destruct (Nat.ltb_spec 20 (length b)).
  - rewrite length_app, length_replicate, length_drop. lia.
  - rewrite length_app, length_replicate. lia.
Qed.

Lemma BytesToAddress_id (b : bytes) : length b = 20%nat → common.BytesToAddress b = b.
Proof.
  intros Hb. unfold common.BytesToAddress, common.AddressLength.
  rewrite Hb. simpl. by rewrite Hb.
Qed.

Lemma HexToAddress_length (s : string) : length (common.HexToAddress s) = 20%nat.
Proof. apply BytesToAddress_length. Qed.

Lemma TrimPrefix_cork_key (val : sdk.ValAddress) (addr : common.Address) :
  gobytes.TrimPrefix (types.GetCorkForValidatorAddressKey val addr)
    [types.CorkForAddressKeyPrefix] = val ++ addr.
Proof. done. Qed.

(** A key built from a 20-byte voter and a 20-byte target is read back as
    that voter and that target. *)
Lemma keyVoter_cork_key (val : sdk.ValAddress) (addr : common.Address) :
  length val = 20%nat →
  keyVoter (types.GetCorkForValidatorAddressKey val addr) = val.
Proof.
  intros Hv. unfold keyVoter. rewrite TrimPrefix_cork_key.
  rewrite take_app_length'; done.
Qed.

Lemma keyTarget_cork_key (val : sdk.ValAddress) (addr : common.Address) :
  length val = 20%nat → length addr = 20%nat →
  keyTarget (types.GetCorkForValidatorAddressKey val addr) = addr.
Proof.
  intros Hv Ha. unfold keyTarget. rewrite TrimPrefix_cork_key.
  rewrite drop_app_length' by done. by apply BytesToAddress_id.
Qed.

(** ** The key-value store *)

Lemma KVGet_KVSet_eq (ctx : Context) (key value : bytes) :
  KVGet (KVSet ctx key value) key = value.
Proof. unfold KVGet, KVSet. simpl. by rewrite lookup_insert_eq. Qed.

Lemma KVGet_KVSet_ne (ctx : Context) (key key' value : bytes) :
  key ≠ key' → KVGet (KVSet ctx key value) key' = KVGet ctx key'.
Proof. intros. unfold KVGet, KVSet. simpl. by rewrite lookup_insert_ne. Qed.

Lemma KVGet_KVDelete_ne (ctx : Context) (key key' : bytes) :
  key ≠ key' → KVGet (KVDelete ctx key) key' = KVGet ctx key'.
Proof. intros. unfold KVGet, KVDelete. simpl. by rewrite lookup_delete_ne. Qed.

Lemma KVGet_ext (ctx ctx' : Context) (key : bytes) :
  KVStore ctx' !! key = KVStore ctx !! key → KVGet ctx' key = KVGet ctx key.
Proof. intros H. exact (f_equal (default []) H). Qed.

Lemma KVGet_None (ctx : Context) (key : bytes) :
  KVStore ctx !! key = None → KVGet ctx key = [].
Proof. intros H. exact (f_equal (default []) H). Qed.

Lemma KVHas_None (ctx : Context) (key : bytes) :
  KVStore ctx !! key = None → KVHas ctx key = false.
Proof.
  intros H. unfold KVHas. apply bool_decide_eq_false.
  intros [value Hv]. rewrite Hv in H. done.
Qed.

(** The iterator yields exactly the entries under the prefix. *)
Lemma elem_of_KVStorePrefixIterator (ctx : Context) (pfx key value : bytes) :
  (key, value) ∈ KVStorePrefixIterator ctx pfx
  ↔ KVStore ctx !! key = Some value ∧ gobytes.HasPrefix key pfx = true.
Proof.
  unfold KVStorePrefixIterator. rewrite merge_sort_Permutation.
  rewrite list_elem_of_filter, elem_of_map_to_list. simpl. tauto.
Qed.

Lemma KVStorePrefixIterator_NoDup (ctx : Context) (pfx : bytes) :
  NoDup (KVStorePrefixIterator ctx pfx).*1.
Proof.
  unfold KVStorePrefixIterator. rewrite merge_sort_Permutation.
  apply (sublist_NoDup _ ((map_to_list (KVStore ctx)).*1)).
  - apply NoDup_fst_map_to_list.
  - apply fmap_sublist, sublist_filter.
Qed.

Lemma KVStorePrefixIterator_empty (ctx : Context) (pfx : bytes) :
  (∀ key, gobytes.HasPrefix key pfx = true → KVStore ctx !! key = None) →
  KVStorePrefixIterator ctx pfx = [].
Proof.
  intros Hnone. destruct (KVStorePrefixIterator ctx pfx) as [|[key value] l] eqn:E; [done|].
  assert ((key, value) ∈ KVStorePrefixIterator ctx pfx) as Hin by (rewrite E; left).
  apply elem_of_KVStorePrefixIterator in Hin as [Hsome Hpfx].
  rewrite (Hnone key Hpfx) in Hsome. done.
Qed.

(** ** Fixed-point division *)

(** The value [Dec.Quo] computes for [power / total]. *)
Definition decRatio (power total : Z) : sdk.Dec :=
  sdk.chopPrecisionAndRound
    (Z.quot (sdk.NewDec power * sdk.precisionReuse * sdk.precisionReuse)
            (sdk.ToDec total)).

Lemma chopPositive_bound (d : Z) : 0 ≤ d → 0 ≤ sdk.chopPositive d ≤ d.
Proof.
  intros Hd. unfold sdk.chopPositive.
  pose proof (Z.quot_rem' d sdk.precisionReuse) as Heq.
  pose proof (Z.rem_bound_pos d sdk.precisionReuse Hd ltac:(done)) as Hrem.
  pose proof (Z.quot_pos d sdk.precisionReuse Hd ltac:(done)) as Hquo.
  unfold sdk.precisionReuse in *.
  set (q := Z.quot d 1000000000000000000) in *.
  set (r := Z.rem d 1000000000000000000) in *.
  destruct (Z.eqb_spec r 0); [lia|].
  destruct (r ?= sdk.fivePrecision); [destruct (Z.even q)|..]; lia.
Qed.

Lemma chopPrecisionAndRound_abs (d : Z) :
  Z.abs (sdk.chopPrecisionAndRound d) ≤ Z.abs d.
Proof.
  unfold sdk.chopPrecisionAndRound. destruct (Z.ltb_spec d 0).
  - pose proof (chopPositive_bound (- d) ltac:(lia)). lia.
  - pose proof (chopPositive_bound d ltac:(lia)). lia.
Qed.

Lemma quot_abs_le (a b : Z) : b ≠ 0 → Z.abs (Z.quot a b) ≤ Z.abs a.
Proof.
  intros Hb. rewrite <- Z.quot_abs by done.
  rewrite Z.quot_div_nonneg by lia.
  apply Z.div_le_upper_bound; [lia|]. nia.
Qed.

Lemma BitLen_le (x : Z) (n : Z) : 0 < n → Z.abs x < 2 ^ n → sdk.BitLen x ≤ n.
Proof.
  intros Hn Hx. unfold sdk.BitLen. destruct (Z.eqb_spec x 0); [lia|].
  assert (Z.log2 (Z.abs x) < n) by (apply Z.log2_lt_pow2; lia). lia.
Qed.

(** Dividing a 64-bit power by a non-zero total never overflows a [Dec]. *)
Lemma Quo_power_total (power total : Z) :
  is_int64 power → total ≠ 0 →
  sdk.Quo (sdk.NewDec power) (sdk.ToDec total) = Ok (decRatio power total).
Proof.
  intros Hp Ht. unfold sdk.Quo. fold (decRatio power total).
  assert (sdk.ToDec total ≠ 0) as Hd2 by (unfold sdk.ToDec, sdk.precisionReuse; lia).
  destruct (Z.eqb_spec (sdk.ToDec total) 0); [done|].
  assert (sdk.BitLen (decRatio power total) ≤ 315) as Hlen.
  { apply BitLen_le; [lia|]. unfold decRatio.
    eapply Z.le_lt_trans; [apply chopPrecisionAndRound_abs|].
    eapply Z.le_lt_trans; [apply quot_abs_le; done|].
    unfold sdk.NewDec, sdk.precisionReuse, is_int64 in *.
    assert (2 ^ 63 * 1000000000000000000 * 1000000000000000000
            * 1000000000000000000 < 2 ^ 315) by done.
    lia. }
  unfold sdk.maxDecBitLen. destruct (Z.gtb_spec (sdk.BitLen (decRatio power total)) 315); [lia|done].
Qed.

Lemma Quo_zero_total (power : Z) :
  sdk.Quo (sdk.NewDec power) (sdk.ToDec 0) = Panic "division by zero".
Proof. done. Qed.

(** ** Grouping the votes *)

(** What [Equals] compares. *)
Definition groupKey (c : types.Cork) : common.Address * bytes :=
  (common.HexToAddress (types.Address c), types.Body c).

Lemma Equals_groupKey (a b : types.Cork) :
  types.Equals a b = true ↔ groupKey a = groupKey b.
Proof.
  unfold types.Equals, gobytes.Equal, groupKey.
  rewrite andb_true_iff, !bool_decide_eq_true. split.
  - by intros [-> ->].
  - by intros [= -> ->].
Qed.

Lemma Equals_refl (a : types.Cork) : types.Equals a a = true.
Proof. by apply Equals_groupKey. Qed.

Lemma Equals_false_groupKey (a b : types.Cork) :
  types.Equals a b = false ↔ groupKey a ≠ groupKey b.
Proof. rewrite <- Equals_groupKey. by destruct (types.Equals a b). Qed.

Definition Zsum (l : list Z) : Z := foldr Z.add 0 l.

Lemma Zsum_app (l1 l2 : list Z) : Zsum (l1 ++ l2) = Zsum l1 + Zsum l2.
Proof. induction l1 as [|x l1 IH]; simpl; lia. Qed.

(** The consensus power the tally reads for a voter, if the staking keeper
    knows the voter. *)
Definition votingPower (k : Keeper) (val : sdk.ValAddress) : option Z :=
  validator ← types.Validator (stakingKeeper k) val;
  Some (int64 (types.GetConsensusPower validator
                 (types.PowerReduction (stakingKeeper k)))).

(** The vote an entry of the store stands for: its commitment and the
    power of its voter. *)
Definition voteOf (k : Keeper) (kv : bytes * bytes) : option (types.Cork * Z) :=
  match MustUnmarshal (cdc k) kv.2 with
  | Ok cork => p ← votingPower k (keyVoter kv.1); Some (cork, p)
  | Panic _ => None
  end.

(** The key the tally deletes when it visits an entry: the key rebuilt from
    the voter and the target read out of the entry's own key. *)
Definition deletedKey (kv : bytes * bytes) : bytes :=
  types.GetCorkForValidatorAddressKey (keyVoter kv.1) (keyTarget kv.1).

(** The entries the tally reaches, in the order of iteration, out of the
    entries [iter] in place when the iterator was opened and the store [m]
    as it stands: an entry whose key an earlier visit has deleted is passed
    over. *)
Fixpoint reachedEntries (iter : list (bytes * bytes)) (m : gmap bytes bytes)
  : list (bytes * bytes) :=
  match iter with
  | [] => []
  | (key, _) :: rest =>
      match m !! key with
      | Some value =>
          (key, value) :: reachedEntries rest (delete (deletedKey (key, value)) m)
      | None => reachedEntries rest m
      end
  end.

Definition talliedEntries (ctx : Context) : list (bytes * bytes) :=
  reachedEntries (KVStorePrefixIterator ctx [types.CorkForAddressKeyPrefix]) (KVStore ctx).

(** The pending votes, in the order of iteration: the votes of the entries
    the tally reaches. *)
Definition pendingVotes (k : Keeper) (ctx : Context) : list (types.Cork * Z) :=
  omap (voteOf k) (talliedEntries ctx).

(** The power of all the votes for commitments equal to [c], whoever cast
    them, as a 64-bit signed sum. *)
Definition groupPower (votes : list (types.Cork * Z)) (c : types.Cork) : Z :=
  int64 (Zsum (filter (λ v, types.Equals v.1 c = true) votes).*2).

Lemma groupPower_snoc votes c p c' :
  groupPower (votes ++ [(c, p)]) c'
  = if types.Equals c c' then int64 (groupPower votes c' + p) else groupPower votes c'.
Proof.
  unfold groupPower. rewrite filter_app, fmap_app, Zsum_app.
  destruct (types.Equals c c') eqn:E.
  - rewrite filter_cons_True by done. simpl.
    rewrite int64_add_l. f_equal. lia.
  - rewrite filter_cons_False by (simpl; congruence). simpl. f_equal. lia.
Qed.

Lemma groupPower_none votes c :
  (∀ c', c' ∈ votes.*1 → types.Equals c' c = false) → groupPower votes c = 0.
Proof.
  intros Hnone. unfold groupPower.
  replace (filter (λ v, types.Equals v.1 c = true) votes) with (@nil (types.Cork * Z)); [done|].
  symmetry. induction votes as [|v votes IH]; [done|].
  rewrite filter_cons_False.
  - apply IH. intros c' Hc'. apply Hnone. simpl. by right.
  - rewrite (Hnone v.1); [done|]. simpl. left.
Qed.

(** The state of the tally after the votes [votes]: one group per class of
    equal commitments, holding the power of the whole class. *)
Record groups_inv (votes : list (types.Cork * Z))
    (corks : list types.Cork) (corkPowers : list Z) : Prop := {
  groups_length : length corks = length corkPowers;
  groups_power : ∀ i c, corks !! i = Some c →
                 corkPowers !! i = Some (groupPower votes c);
  groups_voted : ∀ c, c ∈ corks → c ∈ votes.*1;
  groups_distinct : ∀ i j ci cj, corks !! i = Some ci → corks !! j = Some cj →
                    types.Equals ci cj = true → i = j;
  groups_cover : ∀ c, c ∈ votes.*1 → ∃ rv, rv ∈ corks ∧ types.Equals rv c = true;
}.

Lemma groups_inv_nil : groups_inv [] [] [].
Proof.
  split; try done.
  all: intros c Hc; by apply elem_of_nil in Hc.
Qed.

Lemma countVote_spec votes corks corkPowers cork p :
  is_int64 p →
  groups_inv votes corks corkPowers →
  ∃ corks' corkPowers',
    countVote corks corkPowers cork p = Ok (corks', corkPowers')
    ∧ groups_inv (votes ++ [(cork, p)]) corks' corkPowers'.
Proof.
  intros Hp [Hlen Hpow Hvoted Hdist Hcover]. unfold countVote.
  destruct (list_find _ corks) as [[i rv]|] eqn:Hfind.
  - apply list_find_Some in Hfind as (Hi & Heq & Hfirst).
    rewrite (Hpow i rv Hi). eexists _, _. split; [done|].
    assert (groupKey rv = groupKey cork) as Hkey by by apply Equals_groupKey.
    split.
    + by rewrite length_insert.
    + intros j c Hj. rewrite groupPower_snoc.
      destruct (decide (i = j)) as [<-|Hne].
      * assert (c = rv) as -> by congruence.
        rewrite list_lookup_insert_eq by (rewrite <- Hlen; by eapply lookup_lt_Some).
        replace (types.Equals cork rv) with true; [done|].
        symmetry. by apply Equals_groupKey.
      * rewrite list_lookup_insert_ne by done.
        replace (types.Equals cork c) with false; [by apply Hpow|].
        symmetry. apply Equals_false_groupKey. intros Hk.
        apply Hne. apply (Hdist i j rv c Hi Hj). apply Equals_groupKey. congruence.
    + intros c Hc. rewrite fmap_app, elem_of_app. left. by apply Hvoted.
    + done.
    + intros c Hc. rewrite fmap_app, elem_of_app in Hc.
      destruct Hc as [Hc|Hc]; [by apply Hcover|].
      apply list_elem_of_singleton in Hc as ->. simpl.
      exists rv. split; [|done]. apply list_elem_of_lookup. by exists i.
  - apply list_find_None in Hfind. rewrite Forall_forall in Hfind.
    assert (∀ rv, rv ∈ corks → groupKey rv ≠ groupKey cork) as Hfresh.
    { intros rv Hrv Hk. apply (Hfind rv Hrv). by apply Equals_groupKey. }
    eexists _, _. split; [done|]. split.
    + rewrite !length_app. simpl. lia.
    + intros j c Hj. rewrite groupPower_snoc.
      apply lookup_snoc_Some in Hj as [[Hlt Hj]|[Hjeq <-]].
      * rewrite lookup_app_l by (rewrite <- Hlen; done).
        replace (types.Equals cork c) with false; [by apply Hpow|].
        symmetry. apply Equals_false_groupKey. intros Hk.
        apply (Hfresh c); [|done]. apply list_elem_of_lookup. by exists j.
      * rewrite Equals_refl. rewrite Hjeq, Hlen.
        rewrite lookup_app_r by lia. rewrite Nat.sub_diag. simpl.
        rewrite groupPower_none.
        -- by rewrite Z.add_0_l, int64_small.
        -- intros c' Hc'. apply Equals_false_groupKey. intros Hk.
           destruct (Hcover c' Hc') as (rv & Hrv & Hrveq).
           apply (Hfresh rv Hrv). apply Equals_groupKey in Hrveq. congruence.
    + intros c Hc. rewrite fmap_app, elem_of_app. apply elem_of_app in Hc as [Hc|Hc].
      * left. by apply Hvoted.
      * right. apply list_elem_of_singleton in Hc as ->. simpl. left.
    + intros i j ci cj Hi Hj Heq. apply Equals_groupKey in Heq.
      apply lookup_snoc_Some in Hi as [[Hilt Hi]|[Hieq <-]];
        apply lookup_snoc_Some in Hj as [[Hjlt Hj]|[Hjeq <-]].
      * apply (Hdist i j ci cj Hi Hj). by apply Equals_groupKey.
      * exfalso. apply (Hfresh ci); [|done]. apply list_elem_of_lookup. by exists i.
      * exfalso. apply (Hfresh cj); [|done]. apply list_elem_of_lookup. by exists j.
      * congruence.
    + intros c Hc. rewrite fmap_app, elem_of_app in Hc.
      destruct Hc as [Hc|Hc].
      * destruct (Hcover c Hc) as (rv & Hrv & Hrveq). exists rv. split; [|done].
        apply elem_of_app. by left.
      * apply list_elem_of_singleton in Hc as ->. simpl. exists cork. split.
        -- apply elem_of_app. right. left.
        -- apply Equals_refl.
Qed.

(** ** The tally pass *)

Definition noCorks (ctx : Context) : Prop :=
  ∀ key, isCorkKey key → KVStore ctx !! key = None.

(** Every commitment key of the store is the prefix, a 20-byte voter and a
    20-byte target, as [MsgSubmitCork] of a validator writes them. *)
Definition wellKeyed (ctx : Context) : Prop :=
  ∀ key, isCorkKey key → is_Some (KVStore ctx !! key) → length key = 41%nat.

(** The tally runs to completion when the total power is not zero (or
    nothing is pending), every entry it reaches decodes and the voter of
    every entry it reaches is known to the staking keeper. *)
Definition tally_ready (k : Keeper) (ctx : Context) : Prop :=
  (types.GetLastTotalPower (stakingKeeper k) ≠ 0 ∨ noCorks ctx)
  ∧ Forall (λ kv, is_Some (voteOf k kv)) (talliedEntries ctx).

Lemma voteOf_Some k key value cork p :
  voteOf k (key, value) = Some (cork, p) →
  MustUnmarshal (cdc k) value = Ok cork
  ∧ ∃ validator, types.Validator (stakingKeeper k) (keyVoter key) = Some validator
      ∧ p = int64 (types.GetConsensusPower validator
                     (types.PowerReduction (stakingKeeper k))).
Proof.
  unfold voteOf, votingPower. simpl.
  destruct (MustUnmarshal (cdc k) value) as [c|]; [|done].
  destruct (types.Validator (stakingKeeper k) (keyVoter key)) as [v|]; [|done].
  simpl. intros [= -> <-]. eauto.
Qed.

Lemma reachedEntries_cons_Some (iter : list (bytes * bytes)) (key value0 value : bytes)
    (m : gmap bytes bytes) :
  m !! key = Some value →
  reachedEntries ((key, value0) :: iter) m
  = (key, value) :: reachedEntries iter (delete (deletedKey (key, value)) m).
Proof. intros Hsome. cbn [reachedEntries]. by rewrite Hsome. Qed.

Lemma reachedEntries_cons_None (iter : list (bytes * bytes)) (key value0 : bytes)
    (m : gmap bytes bytes) :
  m !! key = None →
  reachedEntries ((key, value0) :: iter) m = reachedEntries iter m.
Proof. intros Hnone. cbn [reachedEntries]. by rewrite Hnone. Qed.

Lemma KVStore_DeleteCork (k : Keeper) (ctx : Context) (key value : bytes) :
  KVStore (DeleteCork k ctx (keyVoter key) (keyTarget key))
  = delete (deletedKey (key, value)) (KVStore ctx).
Proof. done. Qed.

Lemma tally_loop k iter : ∀ ctx corks corkPowers votes,
  Forall (λ kv, is_Some (voteOf k kv)) (reachedEntries iter (KVStore ctx)) →
  groups_inv votes corks corkPowers →
  ∃ ctx' corks' corkPowers',
    iterateCorksLoop k (tallyHandler k) iter ctx (corks, corkPowers)
      = Ok (ctx', (corks', corkPowers'))
    ∧ groups_inv (votes ++ omap (voteOf k) (reachedEntries iter (KVStore ctx)))
                 corks' corkPowers'
    ∧ KVStore ctx' = foldl (λ m kv, delete (deletedKey kv) m) (KVStore ctx)
                           (reachedEntries iter (KVStore ctx))
    ∧ paramSpace ctx' = paramSpace ctx
    ∧ BlockHeight ctx' = BlockHeight ctx.
Proof.
  induction iter as [|[key value0] iter IH]; intros ctx corks corkPowers votes Hall Hinv.
  - exists ctx, corks, corkPowers. simpl. by rewrite app_nil_r.
  - destruct (KVStore ctx !! key) as [value|] eqn:Hlive.
    + rewrite (reachedEntries_cons_Some _ _ _ value _ Hlive) in Hall |- *.
      apply Forall_cons in Hall as [[[cork p] Hvote] Hall].
      destruct (voteOf_Some _ _ _ _ _ Hvote) as (Hdec & validator & Hval & Hp).
      destruct (countVote_spec votes corks corkPowers cork p)
        as (corks1 & powers1 & Hcount & Hinv1);
        [subst p; apply int64_range|done|].
      rewrite <- (KVStore_DeleteCork k ctx key value) in Hall |- *.
      destruct (IH (DeleteCork k ctx (keyVoter key) (keyTarget key)) corks1 powers1
                   (votes ++ [(cork, p)]) Hall Hinv1)
        as (ctx' & corks' & powers' & Hloop & Hinv' & Hstore & Hparam & Hheight).
      exists ctx', corks', powers'. split; [|split; [|split; [|split]]].
      * cbn [iterateCorksLoop]. rewrite Hlive.
        fold (keyVoter key). fold (keyTarget key).
        rewrite Hdec. cbn [mbind result_bind].
        unfold tallyHandler. rewrite Hval. rewrite <- Hp, Hcount.
        cbn [mbind result_bind]. exact Hloop.
      * cbn [omap list_omap]. rewrite Hvote.
        replace (votes ++ (cork, p) :: omap (voteOf k)
                   (reachedEntries iter
                      (KVStore (DeleteCork k ctx (keyVoter key) (keyTarget key)))))
          with ((votes ++ [(cork, p)]) ++ omap (voteOf k)
                   (reachedEntries iter
                      (KVStore (DeleteCork k ctx (keyVoter key) (keyTarget key)))))
          by (by rewrite <- app_assoc).
        exact Hinv'.
      * rewrite Hstore. done.
      * rewrite Hparam. done.
      * rewrite Hheight. done.
    + rewrite (reachedEntries_cons_None _ _ _ _ Hlive) in Hall |- *.
      destruct (IH ctx corks corkPowers votes Hall Hinv)
        as (ctx' & corks' & powers' & Hloop & Hrest).
      exists ctx', corks', powers'. split; [|done].
      cbn [iterateCorksLoop]. rewrite Hlive. exact Hloop.
Qed.

(** The winners are the groups whose fixed-point ratio exceeds the
    threshold. *)
Lemma quorumLoop_spec totalPower threshold corks :
  totalPower ≠ 0 →
  ∀ corkPowers i winningCorks,
    Forall is_int64 corkPowers →
    (i + length corkPowers = length corks)%nat →
    ∃ winners,
      quorumLoop totalPower threshold corks i corkPowers winningCorks = Ok winners
      ∧ ∀ c, c ∈ winners ↔
             c ∈ winningCorks
             ∨ ∃ j power, corks !! (i + j)%nat = Some c
                 ∧ corkPowers !! j = Some power
                 ∧ sdk.GT (decRatio power totalPower) threshold = true.
Proof.
  intros Htotal. induction corkPowers as [|power rest IH]; intros i winningCorks Hall Hlen.
  - exists winningCorks. split; [done|]. intros c. split; [by left|].
    intros [Hc|(j & p & _ & Hj & _)]; done.
  - apply Forall_cons in Hall as [Hpower Hall]. simpl in Hlen.
    cbn [quorumLoop]. rewrite Quo_power_total by done. cbn [mbind result_bind].
    destruct (corks !! i) as [ci|] eqn:Hci;
      [|apply lookup_ge_None in Hci; lia].
    destruct (sdk.GT (decRatio power totalPower) threshold) eqn:Hgt; cbn [mbind result_bind].
    + destruct (IH (S i) (winningCorks ++ [ci]) Hall ltac:(lia)) as (winners & Hrun & Hspec).
      exists winners. split; [done|]. intros c. rewrite Hspec, elem_of_app, list_elem_of_singleton.
      split.
      * intros [[Hc| ->]|(j & p & Hj & Hp & Hq)].
        -- by left.
        -- right. exists 0%nat, power. by rewrite Nat.add_0_r.
        -- right. exists (S j), p. by rewrite <- Nat.add_succ_comm.
      * intros [Hc|(j & p & Hj & Hp & Hq)]; [by left; left|].
        destruct j as [|j].
        -- left. right. rewrite Nat.add_0_r in Hj. congruence.
        -- right. exists j, p. by rewrite Nat.add_succ_comm.
    + destruct (IH (S i) winningCorks Hall ltac:(lia)) as (winners & Hrun & Hspec).
      exists winners. split; [done|]. intros c. rewrite Hspec. split.
      * intros [Hc|(j & p & Hj & Hp & Hq)]; [by left|].
        right. exists (S j), p. by rewrite <- Nat.add_succ_comm.
      * intros [Hc|(j & p & Hj & Hp & Hq)]; [by left|].
        destruct j as [|j].
        -- simpl in Hp. congruence.
        -- right. exists j, p. by rewrite Nat.add_succ_comm.
Qed.

Lemma groupPower_Equals votes c c' :
  types.Equals c c' = true → groupPower votes c = groupPower votes c'.
Proof.
  intros Heq%Equals_groupKey. unfold groupPower. do 3 f_equal.
  apply list_filter_iff. intros v. rewrite !Equals_groupKey. by rewrite Heq.
Qed.

Lemma groups_powers_int64 votes corks corkPowers :
  groups_inv votes corks corkPowers → Forall is_int64 corkPowers.
Proof.
  intros Hinv. apply Forall_lookup. intros i x Hx.
  destruct (corks !! i) as [c|] eqn:Hc.
  - rewrite (groups_power _ _ _ Hinv i c Hc) in Hx. injection Hx as <-.
    apply int64_range.
  - apply lookup_ge_None in Hc. apply lookup_lt_Some in Hx.
    rewrite (groups_length _ _ _ Hinv) in Hc. lia.
Qed.

Lemma tally_ready_votes k ctx :
  tally_ready k ctx →
  Forall (λ kv, is_Some (voteOf k kv)) (talliedEntries ctx).
Proof. by intros [_ Hall]. Qed.

Lemma lookup_foldl_delete (iter : list (bytes * bytes)) : ∀ (m : gmap bytes bytes) key,
  foldl (λ m kv, delete (deletedKey kv) m) m iter !! key
  = if decide (key ∈ deletedKey <$> iter) then None else m !! key.
Proof.
  induction iter as [|kv iter IH]; intros m key.
  - done.
  - cbn [foldl fmap list_fmap]. rewrite IH.
    destruct (decide (key ∈ deletedKey <$> iter)) as [Hin|Hnin].
    + rewrite decide_True; [done|]. by right.
    + destruct (decide (key = deletedKey kv)) as [->|Hne].
      * rewrite lookup_delete_eq. rewrite decide_True; [done|]. left.
      * rewrite lookup_delete_ne by done. rewrite decide_False; [done|].
        intros Hin. apply elem_of_cons in Hin as [?|?]; done.
Qed.

(** The entries the tally reaches are entries of the store, and the first
    entry of the iteration is always reached. *)
Lemma elem_of_reachedEntries iter : ∀ (m : gmap bytes bytes) kv,
  kv ∈ reachedEntries iter m → m !! kv.1 = Some kv.2 ∧ kv.1 ∈ iter.*1.
Proof.
  induction iter as [|[key value0] iter IH]; intros m kv Hin.
  - by apply elem_of_nil in Hin.
  - destruct (m !! key) as [value|] eqn:Hlive.
    + rewrite (reachedEntries_cons_Some _ _ _ value _ Hlive) in Hin.
      apply elem_of_cons in Hin as [->|Hin].
      * split; [done|]. left.
      * apply IH in Hin as [Hsome Hkey]. split; [|by right].
        destruct (decide (kv.1 = deletedKey (key, value))) as [Heq|Hne].
        -- rewrite Heq, lookup_delete_eq in Hsome. done.
        -- by rewrite lookup_delete_ne in Hsome.
    + rewrite (reachedEntries_cons_None _ _ _ _ Hlive) in Hin.
      apply IH in Hin as [Hsome Hkey]. split; [done|by right].
Qed.

Lemma elem_of_talliedEntries ctx key value :
  (key, value) ∈ talliedEntries ctx →
  KVStore ctx !! key = Some value ∧ isCorkKey key.
Proof.
  intros Hin. apply elem_of_reachedEntries in Hin as [Hsome Hkey].
  split; [done|]. cbn [fst] in Hkey.
  apply list_elem_of_fmap in Hkey as ([key' value'] & -> & Hin).
  by apply elem_of_KVStorePrefixIterator in Hin as [_ Hpfx].
Qed.

Lemma talliedEntries_nil ctx : talliedEntries ctx = [] ↔ noCorks ctx.
Proof.
  unfold talliedEntries. split.
  - intros Hnil key Hkey.
    destruct (KVStore ctx !! key) as [value|] eqn:Hsome; [exfalso|done].
    assert ((key, value) ∈ KVStorePrefixIterator ctx [types.CorkForAddressKeyPrefix])
      as Hin by by apply elem_of_KVStorePrefixIterator.
    destruct (KVStorePrefixIterator ctx [types.CorkForAddressKeyPrefix])
      as [|[key1 value1] iter] eqn:Hiter; [by apply elem_of_nil in Hin|].
    assert (KVStore ctx !! key1 = Some value1) as Hfirst.
    { apply (elem_of_KVStorePrefixIterator ctx [types.CorkForAddressKeyPrefix]).
      rewrite Hiter. left. }
    by rewrite (reachedEntries_cons_Some _ _ _ value1 _ Hfirst) in Hnil.
  - intros Hnone. by rewrite (KVStorePrefixIterator_empty ctx _ Hnone).
Qed.

(** An entry that is its own deleted key is gone after the pass, reached or
    not. *)
Lemma reachedEntries_deletes_self iter : ∀ (m : gmap bytes bytes) (key value : bytes),
  (key, value) ∈ iter → deletedKey (key, value) = key →
  foldl (λ m kv, delete (deletedKey kv) m) m (reachedEntries iter m) !! key = None.
Proof.
  induction iter as [|[key0 value0] iter IH]; intros m key value Hin Hself.
  - by apply elem_of_nil in Hin.
  - destruct (m !! key0) as [value1|] eqn:Hlive.
    + rewrite (reachedEntries_cons_Some _ _ _ value1 _ Hlive). cbn [foldl].
      apply elem_of_cons in Hin as [[= -> ->]|Hin]; [|by eapply IH].
      rewrite lookup_foldl_delete. case_decide; [done|].
      replace (deletedKey (key0, value1)) with key0 by done.
      apply lookup_delete_eq.
    + rewrite (reachedEntries_cons_None _ _ _ _ Hlive).
      apply elem_of_cons in Hin as [[= -> ->]|Hin]; [|by eapply IH].
      rewrite lookup_foldl_delete. by case_decide.
Qed.

(** When every listed entry is in the store under a key that is its own
    deleted key, every listed entry is reached. *)
Lemma reachedEntries_all iter : ∀ (m : gmap bytes bytes),
  NoDup iter.*1 →
  (∀ kv, kv ∈ iter → m !! kv.1 = Some kv.2 ∧ deletedKey kv = kv.1) →
  reachedEntries iter m = iter.
Proof.
  induction iter as [|[key value] iter IH]; intros m Hnodup Hall; [done|].
  cbn [fmap list_fmap fst] in Hnodup. apply NoDup_cons in Hnodup as [Hfresh Hnodup].
  destruct (Hall (key, value)) as [Hsome Hself]; [left|]. cbn [fst snd] in Hsome, Hself.
  rewrite (reachedEntries_cons_Some _ _ _ value _ Hsome). f_equal.
  apply IH; [done|]. intros kv Hkv.
  destruct (Hall kv) as [Hsome' Hself']; [by right|]. split; [|done].
  rewrite Hself. rewrite lookup_delete_ne; [done|].
  intros ->. apply Hfresh. apply list_elem_of_fmap. by exists kv.
Qed.

Lemma deletedKey_wellKeyed (key value : bytes) :
  isCorkKey key → length key = 41%nat → deletedKey (key, value) = key.
Proof.
  intros Hpfx Hlen. apply HasPrefix_singleton in Hpfx as [rest ->].
  unfold deletedKey, keyVoter, keyTarget. cbn [fst].
  change (gobytes.TrimPrefix (types.CorkForAddressKeyPrefix :: rest)
            [types.CorkForAddressKeyPrefix]) with (gobytes.TrimPrefix (1 :: rest) [1]).
  unfold gobytes.TrimPrefix. cbn [gobytes.HasPrefix]. rewrite Z.eqb_refl.
  cbn [andb length drop]. rewrite !drop_0. simpl in Hlen.
  rewrite BytesToAddress_id by (rewrite length_drop; lia).
  unfold types.GetCorkForValidatorAddressKey, types.GetCorkValidatorKeyPrefix.
  rewrite <- app_assoc, take_drop. done.
Qed.

(** On a store whose commitment keys all have the 20-byte voter and
    target layout the tally reaches every stored commitment. *)
Lemma talliedEntries_wellKeyed (ctx : Context) :
  wellKeyed ctx →
  talliedEntries ctx = KVStorePrefixIterator ctx [types.CorkForAddressKeyPrefix].
Proof.
  intros Hkeys. apply reachedEntries_all; [apply KVStorePrefixIterator_NoDup|].
  intros [key value] Hin. apply elem_of_KVStorePrefixIterator in Hin as [Hsome Hpfx].
  split; [done|]. apply deletedKey_wellKeyed; [done|]. apply Hkeys; [done|by eexists].
Qed.

Lemma tally_ready_wellKeyed (k : Keeper) (ctx : Context) :
  wellKeyed ctx →
  tally_ready k ctx
  ↔ (types.GetLastTotalPower (stakingKeeper k) ≠ 0 ∨ noCorks ctx)
    ∧ ∀ key value, KVStore ctx !! key = Some value → isCorkKey key →
                   is_Some (voteOf k (key, value)).
Proof.
  intros Hkeys. unfold tally_ready. rewrite (talliedEntries_wellKeyed ctx Hkeys).
  rewrite Forall_forall. split; intros [Htotal Hall]; (split; [done|]).
  - intros key value Hsome Hpfx. apply (Hall (key, value)).
    by apply elem_of_KVStorePrefixIterator.
  - intros [key value] Hin. apply elem_of_KVStorePrefixIterator in Hin as [Hsome Hpfx].
    by apply Hall.
Qed.

(** What a tally call does: it returns; its groups are the classes of
    equal pending commitments with their summed powers; its winners are
    the groups whose ratio exceeds the threshold; the store loses the keys
    rebuilt from the visited entries and nothing else changes. *)
Lemma GetWinningVotes_spec k ctx threshold :
  tally_ready k ctx →
  ∃ winners ctx' corks corkPowers,
    GetWinningVotes k ctx threshold = Ok (winners, ctx')
    ∧ groups_inv (pendingVotes k ctx) corks corkPowers
    ∧ (∀ c, c ∈ winners ↔
            ∃ j power, corks !! j = Some c ∧ corkPowers !! j = Some power
              ∧ sdk.GT (decRatio power (types.GetLastTotalPower (stakingKeeper k)))
                       threshold = true)
    ∧ (∀ key, KVStore ctx' !! key
              = if decide (key ∈ deletedKey <$> talliedEntries ctx)
                then None else KVStore ctx !! key)
    ∧ paramSpace ctx' = paramSpace ctx
    ∧ BlockHeight ctx' = BlockHeight ctx
    ∧ KVStore ctx' = foldl (λ m kv, delete (deletedKey kv) m) (KVStore ctx)
                           (talliedEntries ctx).
Proof.
  intros Hready. pose proof (tally_ready_votes k ctx Hready) as Hall.
  destruct (tally_loop k _ ctx [] [] [] Hall groups_inv_nil)
    as (ctx' & corks & corkPowers & Hloop & Hinv & Hstore & Hparam & Hheight).
  rewrite app_nil_l in Hinv.
  fold (talliedEntries ctx) in Hinv, Hstore. fold (pendingVotes k ctx) in Hinv.
  assert (∃ winners,
    quorumLoop (types.GetLastTotalPower (stakingKeeper k)) threshold corks 0 corkPowers []
      = Ok winners
    ∧ ∀ c, c ∈ winners ↔
           ∃ j power, corks !! j = Some c ∧ corkPowers !! j = Some power
             ∧ sdk.GT (decRatio power (types.GetLastTotalPower (stakingKeeper k)))
                      threshold = true) as (winners & Hquorum & Hwin).
  { destruct Hready as [[Htotal|Hnone] _].
    - destruct (quorumLoop_spec _ threshold corks Htotal corkPowers 0%nat [])
        as (winners & Hrun & Hspec).
      + by eapply groups_powers_int64.
      + by rewrite (groups_length _ _ _ Hinv).
      + exists winners. split; [done|]. intros c. rewrite Hspec. split.
        * intros [Hc|Hc]; [by apply elem_of_nil in Hc|done].
        * by right.
    - assert (corks = []) as ->.
      { destruct corks as [|c corks]; [done|].
        assert (c ∈ (pendingVotes k ctx).*1) as Hc
          by (apply (groups_voted _ _ _ Hinv); left).
        unfold pendingVotes in Hc.
        rewrite (proj2 (talliedEntries_nil ctx) Hnone) in Hc.
        by apply elem_of_nil in Hc. }
      assert (corkPowers = []) as ->.
      { pose proof (groups_length _ _ _ Hinv) as Hlen.
        destruct corkPowers; [done|simpl in Hlen; lia]. }
      exists []. split; [done|]. intros c. split.
      + intros Hc. by apply elem_of_nil in Hc.
      + intros (j & p & Hj & _). done. }
  exists winners, ctx', corks, corkPowers.
  split; [|split; [done|split; [done|split; [|done]]]].
  - unfold GetWinningVotes, IterateCorks. rewrite Hloop. cbn [mbind result_bind].
    rewrite Hquorum. done.
  - intros key. rewrite Hstore. apply lookup_foldl_delete.
Qed.

(** ** Codecs *)

(** What the keeper relies on: decoding gives back what was encoded. *)
Record codec_sound (c : BinaryCodec) : Prop := {
  cork_roundtrip : ∀ x, MustUnmarshal c (MustMarshal c x) = Ok x;
  ids_roundtrip : ∀ x, MustUnmarshalIDs c (MustMarshalIDs c x) = Ok x;
}.

(** A small self-delimiting wire format, an instance of the codec to run
    the keeper on: a string is written as the pairs [1; c] of its
    characters and closed by [0]; a commitment is its address followed by
    its body; a set of identifiers is the sequence of its strings. *)
Module wire.

Definition code (c : ascii) : Z := Z.of_N (N_of_ascii c).
Definition char (b : Z) : ascii := ascii_of_N (Z.to_N b).

Fixpoint encString (s : string) : bytes :=
  match s with
  | EmptyString => [0]
  | String c s' => 1 :: code c :: encString s'
  end.

Fixpoint decCork (bz : bytes) : option types.Cork :=
  match bz with
  | 0 :: body => Some {| types.Address := ""; types.Body := body |}
  | 1 :: b :: rest =>
      c ← decCork rest;
      Some {| types.Address := String (char b) (types.Address c);
              types.Body := types.Body c |}
  | _ => None
  end.

Fixpoint decIDs (bz : bytes) (cur : string → string) : option (list string) :=
  match bz with
  | [] => Some []
  | 0 :: rest => ids ← decIDs rest id; Some (cur "" :: ids)
  | 1 :: b :: rest => decIDs rest (λ s, cur (String (char b) s))
  | _ => None
  end.

Definition orPanic {A} (o : option A) : result A :=
  match o with
  | Some a => Ok a
  | None => Panic "unmarshal failed"
  end.

Definition cdc : BinaryCodec := {|
  MustMarshal c := encString (types.Address c) ++ types.Body c;
  MustUnmarshal bz := orPanic (decCork bz);
  MustMarshalIDs c := flat_map encString (types.Ids c);
  MustUnmarshalIDs bz := orPanic (ids ← decIDs bz id; Some {| types.Ids := ids |});
|}.

Lemma char_code (c : ascii) : char (code c) = c.
Proof. unfold char, code. by rewrite N2Z.id, ascii_N_embedding. Qed.

Lemma decCork_enc (s : string) (body : bytes) :
  decCork (encString s ++ body) = Some {| types.Address := s; types.Body := body |}.
Proof.
  induction s as [|c s IH]; [done|].
  cbn [encString app decCork]. rewrite IH. simpl. by rewrite char_code.
Qed.

Lemma decIDs_enc (s : string) : ∀ (rest : bytes) (cur : string → string),
  decIDs (encString s ++ rest) cur = (ids ← decIDs rest id; Some (cur s :: ids)).
Proof.
  induction s as [|c s IH]; intros rest cur; [done|].
  cbn [encString app decIDs]. rewrite IH. by rewrite char_code.
Qed.

Lemma decIDs_flat (ids : list string) : decIDs (flat_map encString ids) id = Some ids.
Proof.
  induction ids as [|s ids IH]; [done|].
  cbn [flat_map]. rewrite decIDs_enc, IH. done.
Qed.

Lemma sound : codec_sound cdc.
Proof.
  split.
  - intros [address body]. simpl. by rewrite decCork_enc.
  - intros [ids]. simpl. by rewrite decIDs_flat.
Qed.

Lemma marshal_nonempty (c : types.Cork) : MustMarshal cdc c ≠ [].
Proof. destruct c as [[|a s] body]; done. Qed.

End wire.

(** A codec that, like proto3, writes the empty message as no bytes at
    all. *)
Module compact.

Definition cdc : BinaryCodec := {|
  MustMarshal c :=
    if decide (c = types.emptyCork) then [] else MustMarshal wire.cdc c;
  MustUnmarshal bz :=
    if decide (bz = []) then Ok types.emptyCork else MustUnmarshal wire.cdc bz;
  MustMarshalIDs := MustMarshalIDs wire.cdc;
  MustUnmarshalIDs := MustUnmarshalIDs wire.cdc;
|}.

Lemma compact_sound : codec_sound cdc.
Proof.
  split.
  - intros x. cbn [MustMarshal MustUnmarshal cdc].
    destruct (decide (x = types.emptyCork)) as [->|Hne]; [done|].
    rewrite decide_False by apply wire.marshal_nonempty.
    apply (cork_roundtrip _ wire.sound).
  - apply (ids_roundtrip _ wire.sound).
Qed.

End compact.

(** [tally_ready] is exactly the condition under which a tally returns. *)
Lemma tally_loop_returns k iter : ∀ ctx s res,
  iterateCorksLoop k (tallyHandler k) iter ctx s = Ok res →
  Forall (λ kv, is_Some (voteOf k kv)) (reachedEntries iter (KVStore ctx)).
Proof.
  induction iter as [|[key value0] iter IH]; intros ctx [corks corkPowers] res Hrun; [done|].
  cbn [iterateCorksLoop] in Hrun.
  destruct (KVStore ctx !! key) as [value|] eqn:Hlive.
  - rewrite (reachedEntries_cons_Some _ _ _ value _ Hlive).
    fold (keyVoter key) in Hrun. fold (keyTarget key) in Hrun.
    unfold voteOf, votingPower. constructor.
    + simpl. destruct (MustUnmarshal (cdc k) value) as [cork|]; [|done].
      cbn [mbind result_bind] in Hrun. unfold tallyHandler in Hrun.
      destruct (types.Validator (stakingKeeper k) (keyVoter key)); [by eexists|done].
    + destruct (MustUnmarshal (cdc k) value) as [cork|]; [|done].
      cbn [mbind result_bind] in Hrun. unfold tallyHandler in Hrun.
      destruct (types.Validator (stakingKeeper k) (keyVoter key)); [|done].
      destruct (countVote _ _ _ _) as [[corks1 powers1]|]; [|done].
      cbn [mbind result_bind] in Hrun.
      rewrite <- (KVStore_DeleteCork k ctx key value). by eapply IH.
  - rewrite (reachedEntries_cons_None _ _ _ _ Hlive). by eapply IH.
Qed.

Lemma GetWinningVotes_returns_iff k ctx threshold :
  returns (GetWinningVotes k ctx threshold) ↔ tally_ready k ctx.
Proof.
  split.
  - intros [[winners ctx'] Hrun]. unfold GetWinningVotes, IterateCorks in Hrun.
    destruct (iterateCorksLoop _ _ _ _ _) as [[ctx1 [corks corkPowers]]|] eqn:Hloop; [|done].
    cbn [mbind result_bind] in Hrun.
    pose proof (tally_loop_returns _ _ _ _ _ Hloop) as Hall.
    fold (talliedEntries ctx) in Hall.
    split; [|done].
    destruct (decide (types.GetLastTotalPower (stakingKeeper k) = 0)) as [Hzero|]; [|by left].
    right. apply talliedEntries_nil.
    destruct (tally_loop k _ ctx [] [] [] Hall groups_inv_nil)
      as (ctx2 & corks2 & powers2 & Hloop2 & Hinv & _).
    rewrite Hloop in Hloop2. injection Hloop2 as <- <- <-.
    rewrite app_nil_l in Hinv. fold (talliedEntries ctx) in Hinv.
    destruct (talliedEntries ctx) as [|kv rest] eqn:Hreached; [done|exfalso].
    apply Forall_cons in Hall as [[[cork p] Hvote] _].
    assert (cork ∈ (omap (voteOf k) (kv :: rest)).*1) as Hin.
    { cbn [omap list_omap]. rewrite Hvote. left. }
    destruct (groups_cover _ _ _ Hinv cork Hin) as (rv & Hrv & _).
    pose proof (groups_length _ _ _ Hinv) as Hlen.
    destruct corkPowers as [|power rest'].
    + destruct corks; [by apply elem_of_nil in Hrv|done].
    + cbn [quorumLoop] in Hrun. rewrite Hzero in Hrun. done.
  - intros Hready.
    destruct (GetWinningVotes_spec k ctx threshold Hready) as (winners & ctx' & ? & ? & Hrun & _).
    by exists (winners, ctx').
Qed.

(** The tally writes nothing outside the keys of pending commitments. *)
Lemma GetWinningVotes_frame k ctx threshold winners ctx' :
  GetWinningVotes k ctx threshold = Ok (winners, ctx') →
  (∀ key, ¬ isCorkKey key → KVStore ctx' !! key = KVStore ctx !! key)
  ∧ paramSpace ctx' = paramSpace ctx
  ∧ BlockHeight ctx' = BlockHeight ctx.
Proof.
  intros Hrun.
  assert (tally_ready k ctx) as Hready
    by (apply (GetWinningVotes_returns_iff k ctx threshold); by eexists).
  destruct (GetWinningVotes_spec k ctx threshold Hready)
    as (winners2 & ctx2 & ? & ? & Hrun2 & _ & _ & Hstore & Hparam & Hheight & _).
  rewrite Hrun in Hrun2. injection Hrun2 as <- <-.
  split; [|done]. intros key Hkey. rewrite Hstore.
  rewrite decide_False; [done|]. intros Hin.
  apply list_elem_of_fmap in Hin as (kv & -> & _). by apply Hkey.
Qed.

(** A tally that returns leaves no entry under a key that is the prefix, a
    20-byte voter and a 20-byte target. *)
Lemma GetWinningVotes_gone k ctx threshold winners ctx' val addr :
  GetWinningVotes k ctx threshold = Ok (winners, ctx') →
  length val = 20%nat → length addr = 20%nat →
  KVStore ctx' !! types.GetCorkForValidatorAddressKey val addr = None.
Proof.
  intros Hrun Hval Haddr.
  assert (tally_ready k ctx) as Hready
    by (apply (GetWinningVotes_returns_iff k ctx threshold); by eexists).
  destruct (GetWinningVotes_spec k ctx threshold Hready)
    as (winners2 & ctx2 & ? & ? & Hrun2 & _ & _ & Hlookup & _ & _ & Hstore).
  rewrite Hrun in Hrun2. injection Hrun2 as <- <-.
  destruct (KVStore ctx !! types.GetCorkForValidatorAddressKey val addr)
    as [value|] eqn:Hsome.
  - rewrite Hstore. apply (reachedEntries_deletes_self _ _ _ value).
    + by apply elem_of_KVStorePrefixIterator.
    + unfold deletedKey. cbn [fst]. by rewrite keyVoter_cork_key, keyTarget_cork_key.
  - rewrite Hlookup. by case_decide.
Qed.

(** ** A concrete keeper *)

(** A staking keeper given by a table of consensus powers. *)
Definition tableStaking (totalPower : Z) (powers : list (sdk.ValAddress * Z))
  : types.StakingKeeper := {|
  types.GetLastTotalPower := totalPower;
  types.Validator val :=
    p ← (list_to_map powers : gmap bytes Z) !! val;
    Some {| types.GetConsensusPower := λ _, p |};
  types.PowerReduction := 1000000;
|}.

Definition tableKeeper (totalPower : Z) (powers : list (sdk.ValAddress * Z)) : Keeper :=
  {| cdc := wire.cdc; stakingKeeper := tableStaking totalPower powers |}.

Definition emptyContext (height : Z) : Context :=
  {| KVStore := ∅; paramSpace := None; BlockHeight := height |}.

Definition valA : sdk.ValAddress := replicate 20 170.
Definition valB : sdk.ValAddress := replicate 20 187.

Definition exampleAddrA : string := "0xc0ffee254729296a45a3885639AC7E10F9d54979".

Definition corkA : types.Cork := {| types.Address := exampleAddrA; types.Body := [33] |}.
Definition corkB : types.Cork := {| types.Address := exampleAddrA; types.Body := [34] |}.

(** The one-byte voter that the keeper's test fixture decodes from its
    voter string, with a staking keeper that knows the voter the tally
    reads back. *)
Definition valShort : sdk.ValAddress := (sdk.ValAddressFromHex "24ep6yqkhpwnfdrrapu6fzmjp3xrpsgca11ab1e").1.

Definition keeperShort : Keeper :=
  tableKeeper 100 [(take 20 (valShort ++ common.HexToAddress exampleAddrA), 100)].

Definition contextShort : Context := SetCork keeperShort (emptyContext 7) valShort corkA.

(** ** The tally: claims *)

Lemma not_isCorkKey_singleton (p : Z) :
  p ≠ types.CorkForAddressKeyPrefix → ¬ isCorkKey [p].
Proof. unfold isCorkKey. rewrite HasPrefix_singleton. intros Hp [rest [= ->]]. done. Qed.

Lemma not_isCorkKey_prefix (p : Z) (key : bytes) :
  p ≠ types.CorkForAddressKeyPrefix → gobytes.HasPrefix key [p] = true → ¬ isCorkKey key.
Proof.
  unfold isCorkKey. rewrite !HasPrefix_singleton.
  intros Hp [rest ->] [rest' [= ->]]. done.
Qed.

Lemma tableKeeper_ready totalPower powers ctx threshold res :
  GetWinningVotes (tableKeeper totalPower powers) ctx threshold = Ok res →
  tally_ready (tableKeeper totalPower powers) ctx.
Proof. intros Hrun. apply (GetWinningVotes_returns_iff _ ctx threshold). by eexists. Qed.

(** C8: on a store without pending commitments the tally returns the empty
    result and the very context it was given. *)
Theorem GetWinningVotes_empty_store (k : Keeper) (ctx : Context) (threshold : sdk.Dec) :
  noCorks ctx → GetWinningVotes k ctx threshold = Ok ([], ctx).
Proof.
  intros Hnone. unfold GetWinningVotes, IterateCorks.
  by rewrite (KVStorePrefixIterator_empty ctx _ Hnone).
Qed.

Lemma noCorks_emptyContext (height : Z) : noCorks (emptyContext height).
Proof. intros key _. apply lookup_empty. Qed.

Lemma GetWinningVotes_empty_store_witness :
  GetWinningVotes (tableKeeper 0 []) (emptyContext 7) 660000000000000000
  = Ok ([], emptyContext 7).
Proof.
  apply (GetWinningVotes_empty_store (tableKeeper 0 []) (emptyContext 7)).
  intros key _. reflexivity.
Defined.

(** C3 (amended): a tally that returns leaves no pending commitment of a
    20-byte voter behind: for every 20-byte voter and every 20-byte target
    the store holds no entry after the call, whatever it held before and
    whether its group won or lost. *)
Theorem GetWinningVotes_consumes_commitments
    (k : Keeper) (ctx : Context) (threshold : sdk.Dec) :
  tally_ready k ctx →
  ∃ winners ctx',
    GetWinningVotes k ctx threshold = Ok (winners, ctx')
    ∧ ∀ (val : sdk.ValAddress) (addr : common.Address),
        length val = 20%nat → length addr = 20%nat →
        HasCorkForContract k ctx' val addr = false
        ∧ GetCork k ctx' val addr = Ok (types.emptyCork, false).
Proof.
  intros Hready.
  destruct (GetWinningVotes_spec k ctx threshold Hready)
    as (winners & ctx' & corks & corkPowers & Hrun & _).
  exists winners, ctx'. split; [done|]. intros val addr Hval Haddr.
  pose proof (GetWinningVotes_gone k ctx threshold winners ctx' val addr Hrun Hval Haddr)
    as Hgone.
  split.
  - by apply KVHas_None.
  - unfold GetCork. by rewrite (KVGet_None _ _ Hgone).
Qed.

(** C10: a tally that returns leaves the invalidation nonce, the start of
    the commit period and every scheduled commitment as they were. *)
Theorem GetWinningVotes_preserves_other_entries
    (k : Keeper) (ctx : Context) (threshold : sdk.Dec) :
  tally_ready k ctx →
  ∃ winners ctx',
    GetWinningVotes k ctx threshold = Ok (winners, ctx')
    ∧ GetLatestInvalidationNonce k ctx' = GetLatestInvalidationNonce k ctx
    ∧ GetCommitPeriodStart k ctx' = GetCommitPeriodStart k ctx
    ∧ (∀ blockHeight val,
         GetScheduledCork k ctx' blockHeight val = GetScheduledCork k ctx blockHeight val)
    ∧ (∀ key, gobytes.HasPrefix key [types.ScheduledCorkKeyPrefix] = true →
              KVStore ctx' !! key = KVStore ctx !! key).
Proof.
  intros Hready.
  destruct (GetWinningVotes_spec k ctx threshold Hready)
    as (winners & ctx' & corks & corkPowers & Hrun & _).
  destruct (GetWinningVotes_frame k ctx threshold winners ctx' Hrun) as (Hframe & _).
  exists winners, ctx'. split; [done|]. repeat split.
  - unfold GetLatestInvalidationNonce. f_equal. apply KVGet_ext, Hframe.
    by apply not_isCorkKey_singleton.
  - unfold GetCommitPeriodStart.
    rewrite (KVGet_ext ctx ctx'); [done|]. apply Hframe.
    by apply not_isCorkKey_singleton.
  - intros blockHeight val. unfold GetScheduledCork.
    rewrite (KVGet_ext ctx ctx'); [done|]. apply Hframe.
    by apply (not_isCorkKey_prefix types.ScheduledCorkKeyPrefix).
  - intros key Hkey. apply Hframe.
    by apply (not_isCorkKey_prefix types.ScheduledCorkKeyPrefix).
Qed.

(** Two voters with the same commitment, powers 60 and 40 of 100. *)
Definition keeperAB : Keeper := tableKeeper 100 [(valA, 60); (valB, 40)].

Definition contextAB : Context :=
  SetCork keeperAB (SetCork keeperAB (emptyContext 7) valA corkA) valB corkA.

Lemma keeperAB_ready : tally_ready keeperAB contextAB.
Proof.
  apply (tableKeeper_ready 100 [(valA, 60); (valB, 40)] contextAB
           660000000000000000 ([corkA], emptyContext 7)).
  vm_compute. reflexivity.
Defined.

Lemma GetWinningVotes_consumes_commitments_witness :
  ∃ winners ctx',
    GetWinningVotes keeperAB contextAB 660000000000000000 = Ok (winners, ctx')
    ∧ ∀ (val : sdk.ValAddress) (addr : common.Address),
        length val = 20%nat → length addr = 20%nat →
        HasCorkForContract keeperAB ctx' val addr = false
        ∧ GetCork keeperAB ctx' val addr = Ok (types.emptyCork, false).
Proof.
  apply (GetWinningVotes_consumes_commitments keeperAB contextAB 660000000000000000).
  exact keeperAB_ready.
Defined.

(** C3 as stated: no commitment stored before the call is stored after
    it. *)
Definition consumes_every_commitment (k : Keeper) (ctx : Context) (threshold : sdk.Dec)
  : Prop :=
  ∀ winners ctx',
    GetWinningVotes k ctx threshold = Ok (winners, ctx') →
    ∀ (val : sdk.ValAddress) (addr : common.Address),
      HasCorkForContract k ctx val addr = true →
      HasCorkForContract k ctx' val addr = false.

(** C3, counterexample: the commitment that the keeper's test fixture stores
    under its one-byte voter.  The tally reads the voter back as the first
    20 bytes after the prefix, counts the vote, and deletes the key rebuilt
    from those 20 bytes and the one byte left as the target, which is not
    the key of the entry: the commitment is still stored after the call. *)
Lemma GetWinningVotes_leaves_short_voter :
  ¬ consumes_every_commitment keeperShort contextShort 660000000000000000.
Proof.
  intros Hclaim.
  assert (GetWinningVotes keeperShort contextShort 660000000000000000
          = Ok ([corkA], contextShort)) as Hrun by (vm_compute; reflexivity).
  specialize (Hclaim _ _ Hrun valShort (common.HexToAddress exampleAddrA)).
  assert (HasCorkForContract keeperShort contextShort valShort
            (common.HexToAddress exampleAddrA) = true) as Hhas by (vm_compute; reflexivity).
  rewrite Hhas in Hclaim. specialize (Hclaim eq_refl). discriminate Hclaim.
Qed.

Lemma GetWinningVotes_preserves_other_entries_witness :
  ∃ winners ctx',
    GetWinningVotes keeperAB contextAB 660000000000000000 = Ok (winners, ctx')
    ∧ GetLatestInvalidationNonce keeperAB ctx' = GetLatestInvalidationNonce keeperAB contextAB
    ∧ GetCommitPeriodStart keeperAB ctx' = GetCommitPeriodStart keeperAB contextAB
    ∧ (∀ blockHeight val,
         GetScheduledCork keeperAB ctx' blockHeight val
         = GetScheduledCork keeperAB contextAB blockHeight val)
    ∧ (∀ key, gobytes.HasPrefix key [types.ScheduledCorkKeyPrefix] = true →
              KVStore ctx' !! key = KVStore contextAB !! key).
Proof.
  apply (GetWinningVotes_preserves_other_entries keeperAB contextAB 660000000000000000).
  exact keeperAB_ready.
Defined.

(** The quotient the claim speaks of, as an exact rational number. *)
Definition exactRatio (power total : Z) : Q := (inject_Z power / inject_Z total)%Q.

(** C1 (amended): a tally that returns includes the group of a pending
    commitment if and only if the quotient of the group's accumulated
    power by the total power, computed by [Dec.Quo] with 18 fractional
    digits and rounding half to even, is strictly greater than the
    threshold; a group whose rounded ratio equals the threshold is
    excluded.  The accumulated power is that of the votes the tally
    counts, which on a store of 20-byte voters and targets are the votes
    of all the stored commitments. *)
Theorem GetWinningVotes_quorum_fixed_point
    (k : Keeper) (ctx : Context) (threshold : sdk.Dec) :
  tally_ready k ctx →
  ∃ winners ctx',
    GetWinningVotes k ctx threshold = Ok (winners, ctx')
    ∧ (∀ c, c ∈ (pendingVotes k ctx).*1 →
        ((∃ w, w ∈ winners ∧ types.Equals w c = true)
         ↔ ∃ ratio,
             sdk.Quo (sdk.NewDec (groupPower (pendingVotes k ctx) c))
                     (sdk.ToDec (types.GetLastTotalPower (stakingKeeper k))) = Ok ratio
             ∧ sdk.GT ratio threshold = true))
    ∧ (wellKeyed ctx →
       pendingVotes k ctx
       = omap (voteOf k) (KVStorePrefixIterator ctx [types.CorkForAddressKeyPrefix])).
Proof.
  intros Hready.
  destruct (GetWinningVotes_spec k ctx threshold Hready)
    as (winners & ctx' & corks & corkPowers & Hrun & Hinv & Hwin & _).
  exists winners, ctx'. split; [done|]. split.
  - intros c Hc.
    assert (types.GetLastTotalPower (stakingKeeper k) ≠ 0) as Htotal.
    { destruct Hready as [[Htotal|Hnone] _]; [done|]. exfalso.
      unfold pendingVotes in Hc.
      rewrite (proj2 (talliedEntries_nil ctx) Hnone) in Hc.
      by apply elem_of_nil in Hc. }
    split.
    + intros (w & Hw & Heq). apply Hwin in Hw as (j & power & Hj & Hpower & Hgt).
      rewrite (groups_power _ _ _ Hinv j w Hj) in Hpower. injection Hpower as <-.
      rewrite (groupPower_Equals _ w c Heq) in Hgt.
      eexists. split; [|exact Hgt].
      apply Quo_power_total; [apply int64_range|done].
    + intros (ratio & Hquo & Hgt).
      rewrite Quo_power_total in Hquo by (apply int64_range || done).
      injection Hquo as <-.
      destruct (groups_cover _ _ _ Hinv c Hc) as (rv & Hrv & Heq).
      exists rv. split; [|done]. apply Hwin.
      apply list_elem_of_lookup in Hrv as [j Hj]. exists j, (groupPower (pendingVotes k ctx) rv).
      split; [done|]. split; [by apply (groups_power _ _ _ Hinv)|].
      by rewrite (groupPower_Equals _ rv c Heq).
  - intros Hkeys. unfold pendingVotes. by rewrite (talliedEntries_wellKeyed ctx Hkeys).
Qed.

Lemma wellKeyed_contextAB : wellKeyed contextAB.
Proof.
  intros key Hpfx [value Hsome].
  assert ((key, value) ∈ KVStorePrefixIterator contextAB [types.CorkForAddressKeyPrefix]) as Hin
    by (by apply elem_of_KVStorePrefixIterator).
  vm_compute in Hin.
  apply elem_of_cons in Hin as [[= -> _]|Hin]; [reflexivity|].
  apply elem_of_cons in Hin as [[= -> _]|Hin]; [reflexivity|].
  by apply elem_of_nil in Hin.
Defined.

Lemma GetWinningVotes_quorum_fixed_point_witness :
  ∃ winners ctx',
    GetWinningVotes keeperAB contextAB 660000000000000000 = Ok (winners, ctx')
    ∧ (∀ c, c ∈ (pendingVotes keeperAB contextAB).*1 →
        ((∃ w, w ∈ winners ∧ types.Equals w c = true)
         ↔ ∃ ratio,
             sdk.Quo (sdk.NewDec (groupPower (pendingVotes keeperAB contextAB) c))
                     (sdk.ToDec (types.GetLastTotalPower (stakingKeeper keeperAB))) = Ok ratio
             ∧ sdk.GT ratio 660000000000000000 = true))
    ∧ pendingVotes keeperAB contextAB
      = omap (voteOf keeperAB)
             (KVStorePrefixIterator contextAB [types.CorkForAddressKeyPrefix]).
Proof.
  destruct (GetWinningVotes_quorum_fixed_point keeperAB contextAB 660000000000000000
              keeperAB_ready) as (winners & ctx' & Hrun & Hquorum & Hall).
  exists winners, ctx'. split; [exact Hrun|]. split; [exact Hquorum|].
  exact (Hall wellKeyed_contextAB).
Defined.

(** One voter of power 1 out of a total of 3, and a threshold of
    0.333333333333333333. *)
Definition keeperThird : Keeper := tableKeeper 3 [(valA, 1)].
Definition contextThird : Context := SetCork keeperThird (emptyContext 7) valA corkA.
Definition thresholdThird : sdk.Dec := 333333333333333333.

(** C1 as stated: membership decided by the exact quotient. *)
Definition quorum_by_exact_ratio (k : Keeper) (ctx : Context) (threshold : sdk.Dec) : Prop :=
  ∀ winners ctx',
    GetWinningVotes k ctx threshold = Ok (winners, ctx') →
    ∀ c, c ∈ (pendingVotes k ctx).*1 →
      ((∃ w, w ∈ winners ∧ types.Equals w c = true)
       ↔ (sdk.Dec_to_Q threshold
          < exactRatio (groupPower (pendingVotes k ctx) c)
                       (types.GetLastTotalPower (stakingKeeper k)))%Q).

(** C1, counterexample: with power 1 of 3 the exact ratio 1/3 is greater
    than 0.333333333333333333, yet the tally returns no winner: the
    fixed-point quotient is 0.333333333333333333, equal to the threshold. *)
Lemma GetWinningVotes_quorum_exact_ratio_fails :
  ¬ quorum_by_exact_ratio keeperThird contextThird thresholdThird.
Proof.
  intros Hclaim.
  assert (GetWinningVotes keeperThird contextThird thresholdThird
          = Ok ([], emptyContext 7)) as Hrun by (vm_compute; reflexivity).
  assert (corkA ∈ (pendingVotes keeperThird contextThird).*1) as Hin
    by (vm_compute; left).
  destruct (Hclaim _ _ Hrun corkA Hin) as [_ Hback].
  destruct Hback as (w & Hw & _).
  - vm_compute. reflexivity.
  - by apply elem_of_nil in Hw.
Qed.

(** ** Grouping is by commitment, not by voter *)









(** ** Distinct targets *)

(** A visitor that also records the addresses it is called with. *)
Definition recording {S} (handler : common.Address → S → S * bool)
  : common.Address → S * list common.Address → S * list common.Address * bool :=
  λ address st,
    let '(s', stop) := handler address st.1 in
    ((s', st.2 ++ [address]), stop).

Lemma recording_eq {S} (handler : common.Address → S → S * bool)
    (a : common.Address) (s : S) (trace : list common.Address) :
  recording handler a (s, trace)
  = ((handler a s).1, trace ++ [a], (handler a s).2).
Proof. unfold recording. cbn [fst snd]. by destruct (handler a s). Qed.

Lemma iterateCorkAddressesLoop_recording {S}
    (handler : common.Address → S → S * bool) (iter : list (bytes * bytes)) :
  ∀ (seen : gset bytes) (s : S) (trace : list common.Address),
    ∃ new,
      (iterateCorkAddressesLoop (recording handler) iter seen (s, trace)).2 = trace ++ new
      ∧ (iterateCorkAddressesLoop (recording handler) iter seen (s, trace)).1
        = iterateCorkAddressesLoop handler iter seen s
      ∧ NoDup new
      ∧ (∀ a, a ∈ new → (a ∉ seen) ∧ ∃ kv, kv ∈ iter ∧ keyTarget kv.1 = a)
      ∧ ((∀ a s, (handler a s).2 = false) →
         ∀ kv, kv ∈ iter → keyTarget kv.1 ∈ seen ∨ keyTarget kv.1 ∈ new).
Proof.
  induction iter as [|[key value] iter IH]; intros seen s trace.
  - exists []. simpl. rewrite app_nil_r.
    split; [done|]. split; [done|]. split; [constructor|]. split.
    + intros a Ha. by apply elem_of_nil in Ha.
    + intros _ kv Hkv. by apply elem_of_nil in Hkv.
  - cbn [iterateCorkAddressesLoop]. fold (keyTarget key).
    destruct (bool_decide (keyTarget key ∈ seen)) eqn:Hseen.
    + apply bool_decide_eq_true in Hseen.
      destruct (IH seen s trace) as (new & Htrace & Hstate & Hnodup & Hnew & Hall).
      exists new. split; [done|]. split; [done|]. split; [done|]. split.
      * intros a Ha. destruct (Hnew a Ha) as (Hnotin & kv & Hkv & Heq).
        split; [done|]. exists kv. split; [by right|done].
      * intros Hgo kv Hkv. apply elem_of_cons in Hkv as [->|Hkv]; [by left|].
        by apply Hall.
    + apply bool_decide_eq_false in Hseen.
      rewrite !recording_eq.
      destruct (handler (keyTarget key) s) as [s' stop] eqn:Hcall.
      cbn [fst snd]. destruct stop.
      * exists [keyTarget key]. cbn [fst snd]. split; [done|]. split; [done|]. split.
        { apply NoDup_singleton. }
        split.
        -- intros a Ha. apply list_elem_of_singleton in Ha as ->.
           split; [done|]. exists (key, value). split; [left|done].
        -- intros Hgo. specialize (Hgo (keyTarget key) s). rewrite Hcall in Hgo. done.
      * destruct (IH ({[keyTarget key]} ∪ seen) s' (trace ++ [keyTarget key]))
          as (new & Htrace & Hstate & Hnodup & Hnew & Hall).
        exists (keyTarget key :: new). split; [|split; [done|split; [|split]]].
        -- rewrite Htrace. by rewrite <- app_assoc.
        -- constructor; [|done]. intros Hin. destruct (Hnew _ Hin) as [Hnotin _].
           apply Hnotin. apply elem_of_union. left. by apply elem_of_singleton.
        -- intros a Ha. apply elem_of_cons in Ha as [->|Ha].
           ++ split; [done|]. exists (key, value). split; [left|done].
           ++ destruct (Hnew a Ha) as (Hnotin & kv & Hkv & Heq). split.
              { intros Hs. apply Hnotin. apply elem_of_union. by right. }
              exists kv. split; [by right|done].
        -- intros Hgo kv Hkv. apply elem_of_cons in Hkv as [->|Hkv].
           ++ right. left.
           ++ destruct (Hall Hgo kv Hkv) as [Hs|Hn]; [|by right; right].
              apply elem_of_union in Hs as [Hs|Hs]; [|by left].
              apply elem_of_singleton in Hs. right. rewrite Hs. left.
Qed.






(** ** Storing and reading a commitment *)

Lemma length_zero_iff_nil (bz : bytes) : length bz = 0%nat ↔ bz = [].
Proof. destruct bz; [done|]. split; intros H; [simpl in H; lia|done]. Qed.

Lemma GetCork_ext k ctx ctx' val cel :
  KVGet ctx' (types.GetCorkForValidatorAddressKey val cel)
  = KVGet ctx (types.GetCorkForValidatorAddressKey val cel) →
  GetCork k ctx' val cel = GetCork k ctx val cel.
Proof. unfold GetCork. by intros ->. Qed.

Lemma GetCork_SetCork_eq k ctx val cork :
  codec_sound (cdc k) → MustMarshal (cdc k) cork ≠ [] →
  GetCork k (SetCork k ctx val cork) val (common.HexToAddress (types.Address cork))
  = Ok (cork, true).
Proof.
  intros Hsound Hne. unfold GetCork, SetCork. rewrite KVGet_KVSet_eq.
  rewrite bool_decide_eq_false_2 by (by rewrite length_zero_iff_nil).
  by rewrite (cork_roundtrip _ Hsound).
Qed.

Lemma GetCork_SetCork_ne_target k ctx val cork cel :
  cel ≠ common.HexToAddress (types.Address cork) →
  GetCork k (SetCork k ctx val cork) val cel = GetCork k ctx val cel.
Proof.
  intros Hne. apply GetCork_ext. unfold SetCork. apply KVGet_KVSet_ne.
  intros Heq. apply cork_key_inj_target in Heq. congruence.
Qed.

(** C9 (amended): [SetCork] files the commitment under the address parsed
    from the commitment's own [Address] field.  With a codec that round-trips
    and encodes the commitment to a non-empty byte string, reading that address
    back gives the commitment; every other address reads as before, so an
    address that held nothing reads [(Cork{}, false)], and the commitment
    is read back at such an address if and only if it is the parsed one. *)
Theorem SetCork_keyed_by_own_address
    (k : Keeper) (ctx : Context) (val : sdk.ValAddress) (cork : types.Cork) :
  codec_sound (cdc k) → MustMarshal (cdc k) cork ≠ [] →
  GetCork k (SetCork k ctx val cork) val (common.HexToAddress (types.Address cork))
    = Ok (cork, true)
  ∧ (∀ addr : common.Address,
       addr ≠ common.HexToAddress (types.Address cork) →
       GetCork k (SetCork k ctx val cork) val addr = GetCork k ctx val addr)
  ∧ (∀ addr : common.Address,
       GetCork k ctx val addr = Ok (types.emptyCork, false) →
       (GetCork k (SetCork k ctx val cork) val addr = Ok (cork, true)
        ↔ addr = common.HexToAddress (types.Address cork))).
Proof.
  intros Hsound Hne. split; [by apply GetCork_SetCork_eq|]. split.
  - intros addr Haddr. by apply GetCork_SetCork_ne_target.
  - intros addr Hfree. split.
    + intros Hget.
      destruct (decide (addr = common.HexToAddress (types.Address cork))) as [|Hother]; [done|].
      rewrite GetCork_SetCork_ne_target in Hget by done. congruence.
    + intros ->. by apply GetCork_SetCork_eq.
Qed.

Lemma SetCork_keyed_by_own_address_witness :
  GetCork keeperAB (SetCork keeperAB (emptyContext 7) valA corkA) valA
          (common.HexToAddress (types.Address corkA)) = Ok (corkA, true)
  ∧ (∀ addr : common.Address,
       addr ≠ common.HexToAddress (types.Address corkA) →
       GetCork keeperAB (SetCork keeperAB (emptyContext 7) valA corkA) valA addr
       = GetCork keeperAB (emptyContext 7) valA addr)
  ∧ (∀ addr : common.Address,
       GetCork keeperAB (emptyContext 7) valA addr = Ok (types.emptyCork, false) →
       (GetCork keeperAB (SetCork keeperAB (emptyContext 7) valA corkA) valA addr
          = Ok (corkA, true)
        ↔ addr = common.HexToAddress (types.Address corkA))).
Proof.
  apply (SetCork_keyed_by_own_address keeperAB (emptyContext 7) valA corkA).
  - exact wire.sound.
  - intros H. vm_compute in H. discriminate H.
Defined.

(** C9 as stated, the first half: whatever the commitment, reading the
    address parsed from its [Address] field after [SetCork] gives the
    commitment back as found. *)
Definition reads_back_own_address : Prop :=
  ∀ (k : Keeper) (ctx : Context) (val : sdk.ValAddress) (cork : types.Cork),
    codec_sound (cdc k) →
    GetCork k (SetCork k ctx val cork) val (common.HexToAddress (types.Address cork))
    = Ok (cork, true).

(** C9, counterexample: the empty commitment under a codec that, like
    proto3, encodes it to no bytes.  [SetCork] stores the empty value and
    [GetCork] takes it for a missing entry. *)
Lemma SetCork_empty_commitment_not_read_back : ¬ reads_back_own_address.
Proof.
  intros Hclaim.
  specialize (Hclaim {| cdc := compact.cdc; stakingKeeper := tableStaking 100 [] |}
                     (emptyContext 7) valA types.emptyCork compact.compact_sound).
  vm_compute in Hclaim. discriminate Hclaim.
Qed.

(** ** The invalidation nonce *)

Lemma GetLatestInvalidationNonce_ext k ctx ctx' :
  KVStore ctx' !! [types.LatestInvalidationNonceKey]
  = KVStore ctx !! [types.LatestInvalidationNonceKey] →
  GetLatestInvalidationNonce k ctx' = GetLatestInvalidationNonce k ctx.
Proof. intros H. unfold GetLatestInvalidationNonce. by rewrite (KVGet_ext _ _ _ H). Qed.

Lemma GetLatestInvalidationNonce_KVSet k ctx key value :
  key ≠ [types.LatestInvalidationNonceKey] →
  GetLatestInvalidationNonce k (KVSet ctx key value) = GetLatestInvalidationNonce k ctx.
Proof.
  intros Hne. apply GetLatestInvalidationNonce_ext. unfold KVSet. simpl.
  by apply lookup_insert_ne.
Qed.

Lemma GetLatestInvalidationNonce_Set k ctx n :
  is_uint64 n →
  GetLatestInvalidationNonce k (SetLatestInvalidationNonce k ctx n) = Ok n.
Proof.
  intros Hn. unfold GetLatestInvalidationNonce, SetLatestInvalidationNonce.
  rewrite KVGet_KVSet_eq. by apply BigEndian_roundtrip.
Qed.

(** C4 (amended): for every stored nonce below 2^64 - 1,
    [IncrementInvalidationNonce] stores the nonce plus one and returns it;
    [SetCork], [DeleteCork], [SetCommitPeriodStart], [setParams],
    [SetCellarIDs], [SetScheduledCork] and a tally leave the stored nonce
    unchanged. *)
Theorem IncrementInvalidationNonce_below_max (k : Keeper) (ctx : Context) (n : Z) :
  GetLatestInvalidationNonce k ctx = Ok n → 0 ≤ n < 2 ^ 64 - 1 →
  (∃ ctx', IncrementInvalidationNonce k ctx = Ok (n + 1, ctx')
           ∧ GetLatestInvalidationNonce k ctx' = Ok (n + 1))
  ∧ (∀ val cork, GetLatestInvalidationNonce k (SetCork k ctx val cork) = Ok n)
  ∧ (∀ val cel, GetLatestInvalidationNonce k (DeleteCork k ctx val cel) = Ok n)
  ∧ (∀ height, GetLatestInvalidationNonce k (SetCommitPeriodStart k ctx height) = Ok n)
  ∧ (∀ params, GetLatestInvalidationNonce k (setParams k ctx params) = Ok n)
  ∧ (∀ ids, GetLatestInvalidationNonce k (SetCellarIDs k ctx ids) = Ok n)
  ∧ (∀ height val cork,
       GetLatestInvalidationNonce k (SetScheduledCork k ctx height val cork) = Ok n)
  ∧ (∀ threshold winners ctx',
       GetWinningVotes k ctx threshold = Ok (winners, ctx') →
       GetLatestInvalidationNonce k ctx' = Ok n).
Proof.
  intros Hget Hn. split; [|repeat split].
  - eexists. unfold IncrementInvalidationNonce. rewrite Hget. cbn [mbind result_bind].
    rewrite uint64_small by (unfold is_uint64; lia). split; [done|].
    unfold GetLatestInvalidationNonce. rewrite KVGet_KVSet_eq.
    apply BigEndian_roundtrip. unfold is_uint64. lia.
  - intros val cork. unfold SetCork. by rewrite GetLatestInvalidationNonce_KVSet.
  - intros val cel. rewrite <- Hget. apply GetLatestInvalidationNonce_ext.
    unfold DeleteCork, KVDelete. simpl. by apply lookup_delete_ne.
  - intros height. unfold SetCommitPeriodStart. by rewrite GetLatestInvalidationNonce_KVSet.
  - intros params. by rewrite <- Hget.
  - intros ids. unfold SetCellarIDs. by rewrite GetLatestInvalidationNonce_KVSet.
  - intros height val cork. unfold SetScheduledCork.
    by rewrite GetLatestInvalidationNonce_KVSet.
  - intros threshold winners ctx' Hrun. rewrite <- Hget.
    apply GetLatestInvalidationNonce_ext.
    apply (GetWinningVotes_frame k ctx threshold winners ctx' Hrun).
    by apply not_isCorkKey_singleton.
Qed.

Lemma IncrementInvalidationNonce_below_max_witness :
  ∃ ctx',
    IncrementInvalidationNonce keeperAB
      (SetLatestInvalidationNonce keeperAB (emptyContext 7) 41) = Ok (41 + 1, ctx')
    ∧ GetLatestInvalidationNonce keeperAB ctx' = Ok (41 + 1).
Proof.
  apply (IncrementInvalidationNonce_below_max keeperAB
           (SetLatestInvalidationNonce keeperAB (emptyContext 7) 41) 41).
  - vm_compute. reflexivity.
  - lia.
Defined.

(** C4 as stated: every stored 64-bit nonce is raised by exactly one. *)
Definition nonce_always_raised : Prop :=
  ∀ (k : Keeper) (ctx : Context) (n : Z),
    is_uint64 n → GetLatestInvalidationNonce k ctx = Ok n →
    ∃ ctx', IncrementInvalidationNonce k ctx = Ok (n + 1, ctx').

(** C4, counterexample: from the stored nonce 2^64 - 1 the increment wraps
    around, stores 0 and returns 0. *)
Lemma IncrementInvalidationNonce_wraps_at_max : ¬ nonce_always_raised.
Proof.
  intros Hclaim.
  destruct (Hclaim keeperAB
              (SetLatestInvalidationNonce keeperAB (emptyContext 7) 18446744073709551615)
              18446744073709551615) as (ctx' & Hrun).
  - unfold is_uint64. lia.
  - vm_compute. reflexivity.
  - vm_compute in Hrun. discriminate Hrun.
Qed.

(** ** Genesis *)

Lemma forEach_panics {A S} (body : S → A → result S) (l : list A) :
  ∀ s, (∃ x, x ∈ l ∧ ∀ s', panics (body s' x)) → panics (forEach body l s).
Proof.
  induction l as [|y l IH]; intros s (x & Hx & Hpanic).
  - by apply elem_of_nil in Hx.
  - cbn [forEach]. apply elem_of_cons in Hx as [->|Hx].
    + destruct (Hpanic s) as [msg ->]. by exists msg.
    + destruct (body s y) as [s'|msg]; [|by exists msg].
      cbn [mbind result_bind]. apply IH. by exists x.
Qed.

Lemma importCork_malformed k ctx vc :
  (sdk.ValAddressFromHex (types.vcValidator vc)).2 = true → panics (importCork k ctx vc).
Proof.
  unfold importCork. destruct (sdk.ValAddressFromHex _) as [valAddr err].
  simpl. intros ->. by eexists.
Qed.

Lemma importScheduledCork_malformed k ctx sc :
  (sdk.ValAddressFromHex (types.scValidator sc)).2 = true →
  panics (importScheduledCork k ctx sc).
Proof.
  unfold importScheduledCork. destruct (sdk.ValAddressFromHex _) as [valAddr err].
  simpl. intros ->. by eexists.
Qed.

(** C6: a genesis document in which some pending or scheduled entry has a
    voter that does not decode makes [InitGenesis] panic; no state is
    returned. *)
Theorem InitGenesis_malformed_voter_panics
    (ctx : Context) (k : Keeper) (gs : types.GenesisState) :
  (∃ vc, vc ∈ types.Corks gs
         ∧ (sdk.ValAddressFromHex (types.vcValidator vc)).2 = true)
  ∨ (∃ sc, sc ∈ types.ScheduledCorks gs
           ∧ (sdk.ValAddressFromHex (types.scValidator sc)).2 = true) →
  panics (InitGenesis ctx k gs).
Proof.
  intros Hbad. unfold InitGenesis.
  destruct Hbad as [(vc & Hvc & Herr)|(sc & Hsc & Herr)].
  - destruct (forEach_panics (importCork k) (types.Corks gs)
                (SetLatestInvalidationNonce k
                   (SetCellarIDs k
                      (SetCommitPeriodStart k (setParams k ctx (types.gsParams gs))
                         (BlockHeight (setParams k ctx (types.gsParams gs))))
                      (types.CellarIds gs))
                   (types.InvalidationNonce gs))) as [msg Hmsg].
    { exists vc. split; [done|]. intros s'. by apply importCork_malformed. }
    rewrite Hmsg. by exists msg.
  - destruct (forEach (importCork k) _ _) as [ctx1|msg]; [|by exists msg].
    cbn [mbind result_bind]. apply forEach_panics.
    exists sc. split; [done|]. intros s'. by apply importScheduledCork_malformed.
Qed.

(** The voter string of the keeper's own test fixture is not hexadecimal. *)
Definition genesisBadVoter : types.GenesisState := {|
  types.gsParams := {| types.VotePeriod := 10; types.VoteThreshold := 660000000000000000 |};
  types.CellarIds := {| types.Ids := [exampleAddrA] |};
  types.InvalidationNonce := 0;
  types.Corks := [ {| types.vcValidator := "24ep6yqkhpwnfdrrapu6fzmjp3xrpsgca11ab1e";
                      types.vcCork := Some corkA |} ];
  types.ScheduledCorks := [];
|}.

Lemma InitGenesis_malformed_voter_panics_witness :
  panics (InitGenesis (emptyContext 7) keeperAB genesisBadVoter).
Proof.
  apply (InitGenesis_malformed_voter_panics (emptyContext 7) keeperAB genesisBadVoter).
  left. eexists. split; [left|]. vm_compute. reflexivity.
Defined.

(** The key and the value an entry of the document is stored under. *)
Definition pendingKey (vc : types.ValidatorCork) : bytes :=
  types.GetCorkForValidatorAddressKey
    (sdk.ValAddressFromHex (types.vcValidator vc)).1
    (common.HexToAddress (types.Address (default types.emptyCork (types.vcCork vc)))).

Definition pendingWrite (k : Keeper) (vc : types.ValidatorCork) : bytes * bytes :=
  (pendingKey vc, MustMarshal (cdc k) (default types.emptyCork (types.vcCork vc))).

Definition scheduledKey (sc : types.ScheduledCork) : bytes :=
  types.GetScheduledCorkKey (types.scBlockHeight sc)
    (sdk.ValAddressFromHex (types.scValidator sc)).1.

Definition scheduledWrite (k : Keeper) (sc : types.ScheduledCork) : bytes * bytes :=
  (scheduledKey sc, MustMarshal (cdc k) (default types.emptyCork (types.scCork sc))).




Lemma withStore_id (ctx : Context) : withStore ctx (KVStore ctx) = ctx.
Proof. by destruct ctx. Qed.






Lemma pendingWrite_isCorkKey k vc : isCorkKey (pendingWrite k vc).1.
Proof. done. Qed.

Lemma scheduledWrite_prefix k sc :
  gobytes.HasPrefix (scheduledWrite k sc).1 [types.ScheduledCorkKeyPrefix] = true.
Proof. done. Qed.







Definition hexA : string := "aaaaaaaaaaaaaaaaaaaaaaaaaaaaaaaaaaaaaaaa".



(** * Further properties of the keeper *)

(** ** The fixed-point ratio against the exact one *)

Lemma chopPositive_near (d : Z) :
  0 ≤ d →
  - 500000000000000000 ≤ sdk.chopPositive d * 1000000000000000000 - d
  ≤ 500000000000000000.
Proof.
  intros Hd. unfold sdk.chopPositive.
  pose proof (Z.quot_rem' d sdk.precisionReuse) as Heq.
  pose proof (Z.rem_bound_pos d sdk.precisionReuse Hd ltac:(done)) as Hrem.
  unfold sdk.precisionReuse in *.
  set (q := Z.quot d 1000000000000000000) in *.
  set (r := Z.rem d 1000000000000000000) in *.
  destruct (Z.eqb_spec r 0); [lia|].
  unfold sdk.fivePrecision.
  destruct (Z.compare_spec r 500000000000000000); [destruct (Z.even q)|..]; lia.
Qed.

Lemma chopPrecisionAndRound_near (q : Z) :
  - 500000000000000000 ≤ sdk.chopPrecisionAndRound q * 1000000000000000000 - q
  ≤ 500000000000000000.
Proof.
  unfold sdk.chopPrecisionAndRound. destruct (Z.ltb_spec q 0).
  - pose proof (chopPositive_near (- q) ltac:(lia)). lia.
  - by apply chopPositive_near.
Qed.

Lemma quot_near (a T : Z) : 0 < T → Z.quot a T * T - T < a < Z.quot a T * T + T.
Proof.
  intros HT. pose proof (Z.quot_rem' a T) as Heq.
  pose proof (Z.rem_bound_abs a T ltac:(lia)) as Hrem. lia.
Qed.

Lemma decRatio_quot (power total : Z) :
  total ≠ 0 →
  decRatio power total
  = sdk.chopPrecisionAndRound
      (Z.quot (power * 1000000000000000000 * 1000000000000000000) total).
Proof.
  intros Ht. unfold decRatio, sdk.NewDec, sdk.ToDec, sdk.precisionReuse. f_equal.
  by apply Z.quot_mul_cancel_r.
Qed.

(** A group that the fixed-point comparison admits has an exact ratio above
    the threshold, and a group whose exact ratio is above the threshold by
    at least one unit of the last digit is admitted. *)
Lemma decRatio_exact_bounds (power total : Z) (threshold : sdk.Dec) :
  0 < total →
  (sdk.GT (decRatio power total) threshold = true →
   threshold * total < power * 1000000000000000000)
  ∧ ((threshold + 1) * total ≤ power * 1000000000000000000 →
     sdk.GT (decRatio power total) threshold = true).
Proof.
  intros HT. rewrite decRatio_quot by lia. unfold sdk.GT.
  set (a := power * 1000000000000000000 * 1000000000000000000).
  pose proof (quot_near a total HT) as Hq.
  pose proof (chopPrecisionAndRound_near (Z.quot a total)) as Hr.
  set (q := Z.quot a total) in *. set (r := sdk.chopPrecisionAndRound q) in *.
  split.
  - intros Hgt. apply Z.gtb_lt in Hgt.
    assert ((threshold + 1) * total ≤ r * total) by nia.
    assert (r * 1000000000000000000 * total ≤ q * total + 500000000000000000 * total) by nia.
    unfold a in Hq. nia.
  - intros Hexact. apply Z.gtb_lt.
    assert ((threshold + 1) * 1000000000000000000 * total < q * total + total)
      by (unfold a in Hq; nia).
    assert ((threshold + 1) * 1000000000000000000 ≤ q) by nia.
    lia.
Qed.

Lemma Qlt_Dec_exactRatio (threshold : sdk.Dec) (power total : Z) :
  0 < total →
  (sdk.Dec_to_Q threshold < exactRatio power total)%Q
  ↔ threshold * total < power * 1000000000000000000.
Proof.
  intros HT. destruct total as [|t|t]; [lia| |lia].
  unfold sdk.Dec_to_Q, exactRatio, Qlt, Qdiv, Qmult, Qinv, inject_Z, sdk.precisionReuse.
  cbn [Qnum Qden]. rewrite Z.mul_1_r, Pos.mul_1_l.
  change (Z.pos (Z.to_pos 1000000000000000000)) with 1000000000000000000. lia.
Qed.

Lemma Qle_Dec_exactRatio (threshold : sdk.Dec) (power total : Z) :
  0 < total →
  (sdk.Dec_to_Q threshold <= exactRatio power total)%Q
  ↔ threshold * total ≤ power * 1000000000000000000.
Proof.
  intros HT. destruct total as [|t|t]; [lia| |lia].
  unfold sdk.Dec_to_Q, exactRatio, Qle, Qdiv, Qmult, Qinv, inject_Z, sdk.precisionReuse.
  cbn [Qnum Qden]. rewrite Z.mul_1_r, Pos.mul_1_l.
  change (Z.pos (Z.to_pos 1000000000000000000)) with 1000000000000000000. lia.
Qed.

(** X1: with a positive total power, every winner of a tally has an exact
    ratio strictly above the threshold, and every pending commitment whose
    exact ratio reaches the threshold plus 10^-18 has its group among the
    winners: rounding moves the decision by less than one unit of the last
    digit. *)
Theorem GetWinningVotes_exact_ratio_bounds
    (k : Keeper) (ctx : Context) (threshold : sdk.Dec) :
  tally_ready k ctx → 0 < types.GetLastTotalPower (stakingKeeper k) →
  ∃ winners ctx',
    GetWinningVotes k ctx threshold = Ok (winners, ctx')
    ∧ (∀ w, w ∈ winners →
         (sdk.Dec_to_Q threshold
          < exactRatio (groupPower (pendingVotes k ctx) w)
                       (types.GetLastTotalPower (stakingKeeper k)))%Q)
    ∧ (∀ c, c ∈ (pendingVotes k ctx).*1 →
         (sdk.Dec_to_Q (threshold + 1)%Z
          <= exactRatio (groupPower (pendingVotes k ctx) c)
                        (types.GetLastTotalPower (stakingKeeper k)))%Q →
         ∃ w, w ∈ winners ∧ types.Equals w c = true).
Proof.
  intros Hready Htotal.
  destruct (GetWinningVotes_spec k ctx threshold Hready)
    as (winners & ctx' & corks & corkPowers & Hrun & Hinv & Hwin & _).
  exists winners, ctx'. split; [done|]. split.
  - intros w Hw. apply Hwin in Hw as (j & power & Hj & Hpower & Hgt).
    rewrite (groups_power _ _ _ Hinv j w Hj) in Hpower. injection Hpower as <-.
    apply (proj2 (Qlt_Dec_exactRatio _ _ _ Htotal)).
    apply (proj1 (decRatio_exact_bounds _ _ threshold Htotal)). exact Hgt.
  - intros c Hc Hexact. apply (proj1 (Qle_Dec_exactRatio _ _ _ Htotal)) in Hexact.
    destruct (groups_cover _ _ _ Hinv c Hc) as (rv & Hrv & Heq).
    exists rv. split; [|done]. apply Hwin.
    apply list_elem_of_lookup in Hrv as [j Hj].
    exists j, (groupPower (pendingVotes k ctx) rv).
    split; [done|]. split; [by apply (groups_power _ _ _ Hinv)|].
    rewrite (groupPower_Equals _ rv c Heq).
    apply (proj2 (decRatio_exact_bounds _ _ threshold Htotal)). exact Hexact.
Qed.

Lemma GetWinningVotes_exact_ratio_bounds_witness :
  ∃ winners ctx',
    GetWinningVotes keeperAB contextAB 660000000000000000 = Ok (winners, ctx')
    ∧ (∀ w, w ∈ winners →
         (sdk.Dec_to_Q 660000000000000000%Z
          < exactRatio (groupPower (pendingVotes keeperAB contextAB) w)
                       (types.GetLastTotalPower (stakingKeeper keeperAB)))%Q)
    ∧ (∀ c, c ∈ (pendingVotes keeperAB contextAB).*1 →
         (sdk.Dec_to_Q (660000000000000001)%Z
          <= exactRatio (groupPower (pendingVotes keeperAB contextAB) c)
                        (types.GetLastTotalPower (stakingKeeper keeperAB)))%Q →
         ∃ w, w ∈ winners ∧ types.Equals w c = true).
Proof.
  exact (GetWinningVotes_exact_ratio_bounds keeperAB contextAB 660000000000000000
           keeperAB_ready eq_refl).
Defined.

(** ** How many groups can win *)





(** ** Keys the tally cannot read back *)

(** X3: ballots are single-use.  On a store whose commitment keys all have
    the 20-byte voter and target layout, a tally that returns leaves no
    pending commitment, so a second tally right after it returns no winner
    and changes nothing, whatever its threshold. *)
Theorem GetWinningVotes_twice
    (k : Keeper) (ctx : Context) (threshold threshold' : sdk.Dec) :
  tally_ready k ctx → wellKeyed ctx →
  ∃ winners ctx',
    GetWinningVotes k ctx threshold = Ok (winners, ctx')
    ∧ noCorks ctx'
    ∧ GetWinningVotes k ctx' threshold' = Ok ([], ctx').
Proof.
  intros Hready Hkeys.
  destruct (GetWinningVotes_spec k ctx threshold Hready)
    as (winners & ctx' & corks & corkPowers & Hrun & _ & _ & Hlookup & _ & _ & Hstore).
  exists winners, ctx'. split; [done|].
  assert (noCorks ctx') as Hnone.
  { intros key Hpfx.
    destruct (KVStore ctx !! key) as [value|] eqn:Hsome.
    - rewrite Hstore. apply (reachedEntries_deletes_self _ _ _ value).
      + by apply elem_of_KVStorePrefixIterator.
      + apply deletedKey_wellKeyed; [done|]. apply Hkeys; [done|by eexists].
    - rewrite Hlookup. by case_decide. }
  split; [done|]. unfold GetWinningVotes, IterateCorks.
  by rewrite (KVStorePrefixIterator_empty ctx' _ Hnone).
Qed.

Lemma GetWinningVotes_twice_witness :
  ∃ winners ctx',
    GetWinningVotes keeperAB contextAB 660000000000000000 = Ok (winners, ctx')
    ∧ noCorks ctx'
    ∧ GetWinningVotes keeperAB ctx' 0 = Ok ([], ctx').
Proof.
  apply (GetWinningVotes_twice keeperAB contextAB 660000000000000000 0).
  - exact keeperAB_ready.
  - exact wellKeyed_contextAB.
Defined.

Lemma cork_key_length (val : sdk.ValAddress) (addr : common.Address) :
  length (types.GetCorkForValidatorAddressKey val addr)
  = S (length val + length addr).
Proof.
  unfold types.GetCorkForValidatorAddressKey, types.GetCorkValidatorKeyPrefix.
  rewrite !length_app. simpl. lia.
Qed.

Lemma deletedKey_not_other_length (kv : bytes * bytes)
    (val : sdk.ValAddress) (addr : common.Address) :
  length val ≠ 20%nat → length addr = 20%nat →
  (20 < length val)%nat ∨ addr ≠ replicate 20 0 →
  deletedKey kv ≠ types.GetCorkForValidatorAddressKey val addr.
Proof.
  intros Hval Haddr Hcase Heq. unfold deletedKey in Heq.
  assert (length (keyVoter kv.1) = length val) as Hlen.
  { apply (f_equal length) in Heq. rewrite !cork_key_length in Heq.
    unfold keyTarget in Heq. rewrite BytesToAddress_length in Heq. lia. }
  unfold types.GetCorkForValidatorAddressKey, types.GetCorkValidatorKeyPrefix in Heq.
  apply app_inj_1 in Heq as [Hv Ht]; [|simpl; by rewrite Hlen].
  unfold keyVoter in Hlen. rewrite length_take in Hlen.
  unfold keyTarget in Ht.
  rewrite drop_ge in Ht by lia.
  destruct Hcase as [Hlong|Hzero]; [lia|]. by apply Hzero.
Qed.

(** X4: the tally reads a voter back as the first 20 bytes after the
    prefix, so a commitment stored under a voter address of another length
    is not consumed: it is still in the store after a tally that returns
    (for a voter shorter than 20 bytes, unless its target is the zero
    address). *)
Theorem GetWinningVotes_keeps_odd_voter
    (k : Keeper) (ctx : Context) (threshold : sdk.Dec)
    (val : sdk.ValAddress) (addr : common.Address) :
  tally_ready k ctx →
  length val ≠ 20%nat → length addr = 20%nat →
  (20 < length val)%nat ∨ addr ≠ replicate 20 0 →
  ∃ winners ctx',
    GetWinningVotes k ctx threshold = Ok (winners, ctx')
    ∧ HasCorkForContract k ctx' val addr = HasCorkForContract k ctx val addr
    ∧ GetCork k ctx' val addr = GetCork k ctx val addr.
Proof.
  intros Hready Hval Haddr Hcase.
  destruct (GetWinningVotes_spec k ctx threshold Hready)
    as (winners & ctx' & corks & corkPowers & Hrun & _ & _ & Hstore & _).
  exists winners, ctx'. split; [done|].
  assert (KVStore ctx' !! types.GetCorkForValidatorAddressKey val addr
          = KVStore ctx !! types.GetCorkForValidatorAddressKey val addr) as Hkept.
  { rewrite Hstore. rewrite decide_False; [done|]. intros Hin.
    apply list_elem_of_fmap in Hin as (kv & Heq & _).
    by apply (deletedKey_not_other_length kv val addr). }
  split.
  - unfold HasCorkForContract, KVHas.
    exact (f_equal (λ o : option bytes, bool_decide (is_Some o)) Hkept).
  - apply GetCork_ext. by apply KVGet_ext.
Qed.

Lemma GetWinningVotes_keeps_odd_voter_witness :
  ∃ winners ctx',
    GetWinningVotes keeperShort contextShort 660000000000000000 = Ok (winners, ctx')
    ∧ HasCorkForContract keeperShort ctx' valShort (common.HexToAddress exampleAddrA)
      = HasCorkForContract keeperShort contextShort valShort (common.HexToAddress exampleAddrA)
    ∧ GetCork keeperShort ctx' valShort (common.HexToAddress exampleAddrA)
      = GetCork keeperShort contextShort valShort (common.HexToAddress exampleAddrA).
Proof.
  apply (GetWinningVotes_keeps_odd_voter keeperShort contextShort 660000000000000000
           valShort (common.HexToAddress exampleAddrA)).
  - apply (tableKeeper_ready 100 _ contextShort 660000000000000000 ([corkA], contextShort)).
    vm_compute. reflexivity.
  - vm_compute. discriminate.
  - reflexivity.
  - right. vm_compute. discriminate.
Defined.

(** A voter of 21 bytes whose first 20 bytes are the voter [valA]: its
    entry sorts before the entry of [valA] for the same target, and the key
    the tally rebuilds from it is the key of that entry. *)
Definition valLong : sdk.ValAddress := valA ++ [0].

Definition keeperLong : Keeper := tableKeeper 100 [(valA, 40)].

Definition contextLong : Context :=
  SetCork keeperLong (SetCork keeperLong (emptyContext 7) valA corkA) valLong corkA.

(** X17: the tally deletes while it iterates, and an entry deleted before
    the iterator reaches it is not counted.  With a commitment of [valA]
    (power 40 of 100) and the same commitment under the 21-byte voter
    [valLong], the tally visits the entry of [valLong] first, counts the
    power of the voter it reads back, [valA], and deletes the entry of
    [valA]; that entry is then passed over, so the voter is counted once
    and the group, with 40 of 100, does not reach a threshold of 0.66.
    After the call the entry of [valA] is gone and the entry of [valLong]
    is still stored. *)
Theorem GetWinningVotes_passes_over_deleted_entry :
  (KVStorePrefixIterator contextLong [types.CorkForAddressKeyPrefix]).*1
  = [types.GetCorkForValidatorAddressKey valLong (common.HexToAddress exampleAddrA);
     types.GetCorkForValidatorAddressKey valA (common.HexToAddress exampleAddrA)]
  ∧ pendingVotes keeperLong contextLong = [(corkA, 40)]
  ∧ ∃ ctx',
      GetWinningVotes keeperLong contextLong 660000000000000000 = Ok ([], ctx')
      ∧ HasCorkForContract keeperLong ctx' valA (common.HexToAddress exampleAddrA) = false
      ∧ HasCorkForContract keeperLong ctx' valLong (common.HexToAddress exampleAddrA) = true.
Proof.
  split; [vm_compute; reflexivity|]. split; [vm_compute; reflexivity|].
  exists (SetCork keeperLong (emptyContext 7) valLong corkA).
  split; [vm_compute; reflexivity|]. split; vm_compute; reflexivity.
Qed.

(** ** When the tally panics *)

Lemma result_panics_or_returns {A} (m : result A) : panics m ∨ returns m.
Proof. destruct m as [a|msg]; [right|left]; by eexists. Qed.

Lemma panics_not_returns {A} (m : result A) : panics m ↔ ¬ returns m.
Proof.
  split.
  - intros [msg ->] [a Ha]. done.
  - intros Hnot. destruct m as [a|msg]; [|by eexists]. exfalso. apply Hnot. by eexists.
Qed.

(** X5: on a store whose commitment keys all hold a 20-byte voter and a
    20-byte target, [GetWinningVotes] panics exactly when the total power
    is zero while a commitment is pending, or some pending entry does not
    decode or has a voter that the staking keeper does not know; otherwise
    it returns. *)
Theorem GetWinningVotes_panics_iff
    (k : Keeper) (ctx : Context) (threshold : sdk.Dec) :
  wellKeyed ctx →
  panics (GetWinningVotes k ctx threshold)
  ↔ (types.GetLastTotalPower (stakingKeeper k) = 0
     ∧ ∃ key value, KVStore ctx !! key = Some value ∧ isCorkKey key)
    ∨ (∃ key value, KVStore ctx !! key = Some value ∧ isCorkKey key
         ∧ (panics (MustUnmarshal (cdc k) value)
            ∨ types.Validator (stakingKeeper k) (keyVoter key) = None)).
Proof.
  intros Hkeys.
  rewrite panics_not_returns, GetWinningVotes_returns_iff.
  rewrite (tally_ready_wellKeyed k ctx Hkeys). split.
  - intros Hnot.
    destruct (decide (Forall (λ kv, is_Some (voteOf k kv))
                (KVStorePrefixIterator ctx [types.CorkForAddressKeyPrefix]))) as [Hall|Hbad].
    + left.
      assert (∀ key value, KVStore ctx !! key = Some value → isCorkKey key →
                           is_Some (voteOf k (key, value))) as Hvotes.
      { intros key value Hsome Hpfx. rewrite Forall_forall in Hall.
        apply (Hall (key, value)). by apply elem_of_KVStorePrefixIterator. }
      destruct (decide (types.GetLastTotalPower (stakingKeeper k) = 0)) as [Hzero|Hpos].
      * split; [done|].
        destruct (KVStorePrefixIterator ctx [types.CorkForAddressKeyPrefix])
          as [|[key value] rest] eqn:Hiter.
        -- exfalso. apply Hnot. split; [|done]. right. intros key Hpfx.
           destruct (KVStore ctx !! key) as [value|] eqn:Hsome; [exfalso|done].
           assert ((key, value) ∈ KVStorePrefixIterator ctx [types.CorkForAddressKeyPrefix])
             as Hin by (by apply elem_of_KVStorePrefixIterator).
           rewrite Hiter in Hin. by apply elem_of_nil in Hin.
        -- assert ((key, value) ∈ KVStorePrefixIterator ctx [types.CorkForAddressKeyPrefix])
             as Hin by (rewrite Hiter; left).
           apply elem_of_KVStorePrefixIterator in Hin as [Hsome Hpfx]. by exists key, value.
      * exfalso. apply Hnot. split; [by left|done].
    + right. apply not_Forall_Exists in Hbad; [|apply _].
      apply Exists_exists in Hbad as ([key value] & Hin & Hnone).
      apply elem_of_KVStorePrefixIterator in Hin as [Hsome Hpfx].
      exists key, value. split; [done|]. split; [done|].
      destruct (voteOf k (key, value)) as [vote|] eqn:Hvote;
        [exfalso; apply Hnone; by eexists|].
      unfold voteOf, votingPower in Hvote. cbn [fst snd] in Hvote.
      destruct (MustUnmarshal (cdc k) value) as [cork|msg]; [|left; by eexists].
      right. by destruct (types.Validator (stakingKeeper k) (keyVoter key)).
  - intros [[Hzero (key & value & Hsome & Hpfx)]|(key & value & Hsome & Hpfx & Hbad)]
           [[Htotal|Hnone] Hvotes].
    + done.
    + rewrite (Hnone key Hpfx) in Hsome. done.
    + destruct (Hvotes key value Hsome Hpfx) as [[cork p] Hvote].
      apply voteOf_Some in Hvote as (Hdec & validator & Hval & _).
      destruct Hbad as [[msg Hmsg]|Hunknown]; congruence.
    + destruct (Hvotes key value Hsome Hpfx) as [[cork p] Hvote].
      apply voteOf_Some in Hvote as (Hdec & validator & Hval & _).
      destruct Hbad as [[msg Hmsg]|Hunknown]; congruence.
Qed.

Lemma wellKeyed_contextThird : wellKeyed contextThird.
Proof.
  intros key Hpfx [value Hsome].
  assert ((key, value) ∈ KVStorePrefixIterator contextThird [types.CorkForAddressKeyPrefix])
    as Hin by (by apply elem_of_KVStorePrefixIterator).
  vm_compute in Hin.
  apply elem_of_cons in Hin as [[= -> _]|Hin]; [reflexivity|].
  by apply elem_of_nil in Hin.
Defined.

Lemma GetWinningVotes_panics_iff_witness :
  panics (GetWinningVotes (tableKeeper 0 [(valA, 1)]) contextThird 660000000000000000).
Proof.
  refine (proj2 (GetWinningVotes_panics_iff (tableKeeper 0 [(valA, 1)]) contextThird
                   660000000000000000 wellKeyed_contextThird) _).
  left. split; [reflexivity|].
  exists (types.GetCorkForValidatorAddressKey valA (common.HexToAddress exampleAddrA)).
  eexists. split; [|reflexivity]. vm_compute. reflexivity.
Defined.

(** ** The commitment store *)

Lemma cork_key_inj (v1 v2 : sdk.ValAddress) (a1 a2 : common.Address) :
  length a1 = length a2 →
  types.GetCorkForValidatorAddressKey v1 a1 = types.GetCorkForValidatorAddressKey v2 a2 →
  v1 = v2 ∧ a1 = a2.
Proof.
  unfold types.GetCorkForValidatorAddressKey, types.GetCorkValidatorKeyPrefix.
  intros Hlen Heq. apply app_inj_2 in Heq as [Hv Ha]; [|done].
  split; [|done]. by apply app_inv_head in Hv.
Qed.

Lemma HasCorkForContract_ext k ctx ctx' val cel :
  KVStore ctx' !! types.GetCorkForValidatorAddressKey val cel
  = KVStore ctx !! types.GetCorkForValidatorAddressKey val cel →
  HasCorkForContract k ctx' val cel = HasCorkForContract k ctx val cel.
Proof.
  intros H. unfold HasCorkForContract, KVHas.
  exact (f_equal (λ o : option bytes, bool_decide (is_Some o)) H).
Qed.

(** X6: resubmission overwrites.  Storing a second commitment of the same
    voter for the same parsed target leaves the store exactly as if only
    the second had been stored; in particular storing the same commitment
    twice is the same as storing it once. *)
Theorem SetCork_resubmission
    (k : Keeper) (ctx : Context) (val : sdk.ValAddress) (cork1 cork2 : types.Cork) :
  common.HexToAddress (types.Address cork1) = common.HexToAddress (types.Address cork2) →
  SetCork k (SetCork k ctx val cork1) val cork2 = SetCork k ctx val cork2.
Proof.
  intros Haddr. unfold SetCork, KVSet, withStore. cbn [KVStore paramSpace BlockHeight].
  rewrite Haddr. f_equal. apply insert_insert_eq.
Qed.

Lemma SetCork_resubmission_witness :
  SetCork keeperAB (SetCork keeperAB (emptyContext 7) valA corkA) valA corkB
  = SetCork keeperAB (emptyContext 7) valA corkB.
Proof.
  apply (SetCork_resubmission keeperAB (emptyContext 7) valA corkA corkB). reflexivity.
Defined.

(** X7: [SetCork] makes the entry of its voter and parsed target present
    and touches no other entry: every other (voter, target) pair reads as
    before, through [GetCork] and through [HasCorkForContract]. *)
Theorem SetCork_other_entries
    (k : Keeper) (ctx : Context) (val : sdk.ValAddress) (cork : types.Cork)
    (val' : sdk.ValAddress) (cel' : common.Address) :
  length cel' = 20%nat →
  (val', cel') ≠ (val, common.HexToAddress (types.Address cork)) →
  HasCorkForContract k (SetCork k ctx val cork) val
    (common.HexToAddress (types.Address cork)) = true
  ∧ GetCork k (SetCork k ctx val cork) val' cel' = GetCork k ctx val' cel'
  ∧ HasCorkForContract k (SetCork k ctx val cork) val' cel'
    = HasCorkForContract k ctx val' cel'.
Proof.
  intros Hlen Hne.
  assert (types.GetCorkForValidatorAddressKey val (common.HexToAddress (types.Address cork))
          ≠ types.GetCorkForValidatorAddressKey val' cel') as Hkey.
  { intros Heq. apply cork_key_inj in Heq as [-> <-]; [done|].
    by rewrite HexToAddress_length. }
  split; [|split].
  - unfold HasCorkForContract, KVHas, SetCork, KVSet. cbn [KVStore withStore].
    rewrite lookup_insert_eq. by apply bool_decide_eq_true_2.
  - apply GetCork_ext. unfold SetCork. by apply KVGet_KVSet_ne.
  - apply HasCorkForContract_ext. unfold SetCork, KVSet. cbn [KVStore withStore].
    by apply lookup_insert_ne.
Qed.

Lemma SetCork_other_entries_witness :
  HasCorkForContract keeperAB (SetCork keeperAB (emptyContext 7) valA corkA) valA
    (common.HexToAddress (types.Address corkA)) = true
  ∧ GetCork keeperAB (SetCork keeperAB (emptyContext 7) valA corkA) valB
            (common.HexToAddress exampleAddrA)
    = GetCork keeperAB (emptyContext 7) valB (common.HexToAddress exampleAddrA)
  ∧ HasCorkForContract keeperAB (SetCork keeperAB (emptyContext 7) valA corkA) valB
      (common.HexToAddress exampleAddrA)
    = HasCorkForContract keeperAB (emptyContext 7) valB (common.HexToAddress exampleAddrA).
Proof.
  apply (SetCork_other_entries keeperAB (emptyContext 7) valA corkA valB
           (common.HexToAddress exampleAddrA)).
  - reflexivity.
  - intros H. vm_compute in H. discriminate H.
Defined.

(** X8: [DeleteCork] removes the entry of its voter and target, so that
    [GetCork] answers [(Cork{}, false)] and [HasCorkForContract] answers
    false there; it changes no other (voter, target) entry; and deleting
    an entry that is not there changes nothing at all. *)
Theorem DeleteCork_only_that_entry
    (k : Keeper) (ctx : Context) (val : sdk.ValAddress) (cel : common.Address) :
  GetCork k (DeleteCork k ctx val cel) val cel = Ok (types.emptyCork, false)
  ∧ HasCorkForContract k (DeleteCork k ctx val cel) val cel = false
  ∧ (∀ (val' : sdk.ValAddress) (cel' : common.Address),
       length cel' = length cel → (val', cel') ≠ (val, cel) →
       GetCork k (DeleteCork k ctx val cel) val' cel' = GetCork k ctx val' cel'
       ∧ HasCorkForContract k (DeleteCork k ctx val cel) val' cel'
         = HasCorkForContract k ctx val' cel')
  ∧ (HasCorkForContract k ctx val cel = false → DeleteCork k ctx val cel = ctx).
Proof.
  assert (KVStore (DeleteCork k ctx val cel) !! types.GetCorkForValidatorAddressKey val cel
          = None) as Hgone by apply lookup_delete_eq.
  split; [|split; [|split]].
  - unfold GetCork. by rewrite (KVGet_None _ _ Hgone).
  - by apply KVHas_None.
  - intros val' cel' Hlen Hne.
    assert (KVStore (DeleteCork k ctx val cel) !! types.GetCorkForValidatorAddressKey val' cel'
            = KVStore ctx !! types.GetCorkForValidatorAddressKey val' cel') as Hkept.
    { apply lookup_delete_ne. intros Heq.
      apply cork_key_inj in Heq as [-> ->]; done. }
    split.
    + apply GetCork_ext. by apply KVGet_ext.
    + by apply HasCorkForContract_ext.
  - intros Hhas. unfold HasCorkForContract, KVHas in Hhas.
    apply bool_decide_eq_false in Hhas.
    unfold DeleteCork, KVDelete. rewrite delete_id.
    + apply withStore_id.
    + destruct (KVStore ctx !! _) eqn:E; [|done]. exfalso. apply Hhas. by eexists.
Qed.

(** ** The commit period and the nonce *)

Lemma GetCommitPeriodStart_ext k ctx ctx' :
  KVStore ctx' !! [types.CommitPeriodStartKey] = KVStore ctx !! [types.CommitPeriodStartKey] →
  GetCommitPeriodStart k ctx' = GetCommitPeriodStart k ctx.
Proof. intros H. unfold GetCommitPeriodStart. by rewrite (KVGet_ext _ _ _ H). Qed.

(** X9: the start of the commit period survives the round trip through its
    eight stored bytes for every 64-bit signed height, negative ones
    included, and is then reported as present; a later [SetCork] or
    [DeleteCork] does not change it. *)
Theorem CommitPeriodStart_roundtrip (k : Keeper) (ctx : Context) (height : Z) :
  is_int64 height →
  GetCommitPeriodStart k (SetCommitPeriodStart k ctx height) = Ok (height, true)
  ∧ HasCommitPeriodStart k (SetCommitPeriodStart k ctx height) = true
  ∧ (∀ val cork,
       GetCommitPeriodStart k (SetCork k (SetCommitPeriodStart k ctx height) val cork)
       = Ok (height, true))
  ∧ (∀ val cel,
       GetCommitPeriodStart k (DeleteCork k (SetCommitPeriodStart k ctx height) val cel)
       = Ok (height, true)).
Proof.
  intros Hheight.
  assert (GetCommitPeriodStart k (SetCommitPeriodStart k ctx height) = Ok (height, true))
    as Hget.
  { unfold GetCommitPeriodStart, SetCommitPeriodStart. rewrite KVGet_KVSet_eq.
    rewrite bool_decide_eq_false_2 by done.
    rewrite BigEndian_roundtrip by apply uint64_range. cbn [mbind result_bind].
    by rewrite int64_uint64. }
  split; [done|]. split; [|split].
  - unfold HasCommitPeriodStart, KVHas, SetCommitPeriodStart, KVSet. cbn [KVStore withStore].
    rewrite lookup_insert_eq. by apply bool_decide_eq_true_2.
  - intros val cork. rewrite <- Hget. apply GetCommitPeriodStart_ext.
    unfold SetCork, KVSet. cbn [KVStore withStore]. by apply lookup_insert_ne.
  - intros val cel. rewrite <- Hget. apply GetCommitPeriodStart_ext.
    unfold DeleteCork, KVDelete. cbn [KVStore withStore]. by apply lookup_delete_ne.
Qed.

Lemma CommitPeriodStart_roundtrip_witness :
  GetCommitPeriodStart keeperAB (SetCommitPeriodStart keeperAB contextAB (-3)) = Ok (-3, true).
Proof.
  refine (proj1 (CommitPeriodStart_roundtrip keeperAB contextAB (-3) _)).
  unfold is_int64. lia.
Defined.

(** X10: a nonce that was never stored reads as 0 and the first increment
    stores and returns 1; a stored 64-bit nonce reads back as it was
    written. *)
Theorem InvalidationNonce_default_and_roundtrip (k : Keeper) (ctx : Context) (n : Z) :
  is_uint64 n →
  GetLatestInvalidationNonce k (SetLatestInvalidationNonce k ctx n) = Ok n
  ∧ (KVStore ctx !! [types.LatestInvalidationNonceKey] = None →
     GetLatestInvalidationNonce k ctx = Ok 0
     ∧ ∃ ctx', IncrementInvalidationNonce k ctx = Ok (1, ctx')
               ∧ GetLatestInvalidationNonce k ctx' = Ok 1).
Proof.
  intros Hn. split.
  - unfold GetLatestInvalidationNonce, SetLatestInvalidationNonce.
    rewrite KVGet_KVSet_eq. by apply BigEndian_roundtrip.
  - intros Hunset.
    assert (GetLatestInvalidationNonce k ctx = Ok 0) as Hzero.
    { unfold GetLatestInvalidationNonce. by rewrite (KVGet_None _ _ Hunset). }
    split; [done|]. eexists. unfold IncrementInvalidationNonce. rewrite Hzero.
    cbn [mbind result_bind]. split; [reflexivity|].
    unfold GetLatestInvalidationNonce. rewrite KVGet_KVSet_eq. reflexivity.
Qed.

Lemma InvalidationNonce_default_and_roundtrip_witness :
  GetLatestInvalidationNonce keeperAB
    (SetLatestInvalidationNonce keeperAB (emptyContext 7) 18446744073709551615)
  = Ok 18446744073709551615.
Proof.
  refine (proj1 (InvalidationNonce_default_and_roundtrip keeperAB (emptyContext 7)
                   18446744073709551615 _)).
  unfold is_uint64. lia.
Defined.

(** [count] successive increments, as a host does one per consumed tally. *)
Fixpoint incrementTimes (count : nat) (k : Keeper) (ctx : Context) : result Context :=
  match count with
  | O => Ok ctx
  | S count' =>
      '(_, ctx') ← IncrementInvalidationNonce k ctx;
      incrementTimes count' k ctx'
  end.

(** X11: increments add up.  From a stored nonce [n], [count] successive
    increments leave [n + count] stored, as long as that stays below 2^64;
    no increment in between panics or is lost. *)
Theorem IncrementInvalidationNonce_repeated (count : nat) :
  ∀ (k : Keeper) (ctx : Context) (n : Z),
    GetLatestInvalidationNonce k ctx = Ok n →
    0 ≤ n → n + Z.of_nat count < 2 ^ 64 →
    ∃ ctx', incrementTimes count k ctx = Ok ctx'
            ∧ GetLatestInvalidationNonce k ctx' = Ok (n + Z.of_nat count).
Proof.
  induction count as [|count IH]; intros k ctx n Hget Hn Hbound.
  - exists ctx. split; [done|]. by rewrite Z.add_0_r.
  - cbn [incrementTimes]. unfold IncrementInvalidationNonce. rewrite Hget.
    cbn [mbind result_bind].
    rewrite uint64_small by (unfold is_uint64; lia).
    destruct (IH k (KVSet ctx [types.LatestInvalidationNonceKey]
                      (sdk.Uint64ToBigEndian (n + 1))) (n + 1)) as (ctx' & Hrun & Hget').
    + unfold GetLatestInvalidationNonce. rewrite KVGet_KVSet_eq.
      apply BigEndian_roundtrip. unfold is_uint64. lia.
    + lia.
    + lia.
    + exists ctx'. split; [done|]. rewrite Hget'. f_equal. lia.
Qed.

Lemma IncrementInvalidationNonce_repeated_witness :
  ∃ ctx', incrementTimes 3 keeperAB (emptyContext 7) = Ok ctx'
          ∧ GetLatestInvalidationNonce keeperAB ctx' = Ok (0 + Z.of_nat 3).
Proof.
  apply (IncrementInvalidationNonce_repeated 3 keeperAB (emptyContext 7) 0).
  - reflexivity.
  - lia.
  - simpl. lia.
Defined.

(** ** Does a voter have a commitment *)

Lemma HasPrefix_iff_app (key pfx : bytes) :
  gobytes.HasPrefix key pfx = true ↔ ∃ rest, key = pfx ++ rest.
Proof.
  revert key. induction pfx as [|p pfx IH]; intros key.
  - simpl. split; [by exists key|done].
  - destruct key as [|b key]; simpl.
    + split; [done|]. by intros [rest ?].
    + rewrite andb_true_iff, Z.eqb_eq, IH. split.
      * intros [-> [rest ->]]. by exists rest.
      * intros [rest [= -> ->]]. split; [done|]. by exists rest.
Qed.

(** X12: [HasCork] answers true exactly when some stored key starts with
    the voter's key prefix.  So it is true after [SetCork] for that voter,
    false on a store without commitments, and also true for a byte string
    that is only the beginning of a voter that has a commitment. *)
Theorem HasCork_iff (k : Keeper) (ctx : Context) (val : sdk.ValAddress) :
  (HasCork k ctx val = true
   ↔ ∃ rest value, KVStore ctx !! (types.GetCorkValidatorKeyPrefix val ++ rest) = Some value)
  ∧ (∀ cork, HasCork k (SetCork k ctx val cork) val = true)
  ∧ (∀ more cork, HasCork k (SetCork k ctx (val ++ more) cork) val = true)
  ∧ (noCorks ctx → HasCork k ctx val = false).
Proof.
  assert (HasCork k ctx val = true
          ↔ ∃ rest value,
              KVStore ctx !! (types.GetCorkValidatorKeyPrefix val ++ rest) = Some value) as Hiff.
  { unfold HasCork. split.
    - destruct (KVStorePrefixIterator ctx _) as [|[key value] l] eqn:Hiter; [done|].
      intros _.
      assert ((key, value) ∈ KVStorePrefixIterator ctx (types.GetCorkValidatorKeyPrefix val))
        as Hin by (rewrite Hiter; left).
      apply elem_of_KVStorePrefixIterator in Hin as [Hsome Hpfx].
      apply HasPrefix_iff_app in Hpfx as [rest ->]. by exists rest, value.
    - intros (rest & value & Hsome).
      assert ((types.GetCorkValidatorKeyPrefix val ++ rest, value)
              ∈ KVStorePrefixIterator ctx (types.GetCorkValidatorKeyPrefix val)) as Hin.
      { apply elem_of_KVStorePrefixIterator. split; [done|]. apply HasPrefix_app. }
      destruct (KVStorePrefixIterator ctx _); [by apply elem_of_nil in Hin|done]. }
  split; [done|].
  assert (∀ ctx1 more cork, HasCork k (SetCork k ctx1 (val ++ more) cork) val = true) as Hset.
  { intros ctx1 more cork. unfold HasCork.
    assert ((types.GetCorkForValidatorAddressKey (val ++ more)
               (common.HexToAddress (types.Address cork)), MustMarshal (cdc k) cork)
            ∈ KVStorePrefixIterator (SetCork k ctx1 (val ++ more) cork)
                (types.GetCorkValidatorKeyPrefix val)) as Hin.
    { apply elem_of_KVStorePrefixIterator. split.
      - unfold SetCork, KVSet. cbn [KVStore withStore]. apply lookup_insert_eq.
      - apply HasPrefix_iff_app. exists (more ++ common.HexToAddress (types.Address cork)).
        unfold types.GetCorkForValidatorAddressKey, types.GetCorkValidatorKeyPrefix.
        by rewrite <- !app_assoc. }
    destruct (KVStorePrefixIterator _ _); [by apply elem_of_nil in Hin|done]. }
  split; [|split].
  - intros cork. specialize (Hset ctx [] cork). by rewrite app_nil_r in Hset.
  - intros more cork. apply Hset.
  - intros Hnone. apply not_true_is_false. intros Hhas.
    apply Hiff in Hhas as (rest & value & Hsome).
    rewrite Hnone in Hsome; [done|]. done.
Qed.

(** ** A commitment with an empty encoding *)

(** X13: [GetCork] takes an empty stored value for a missing one.  A
    commitment that the codec encodes to the empty byte string is stored by
    [SetCork], and [HasCorkForContract] reports it, yet [GetCork] answers
    [(Cork{}, false)] for it. *)
Theorem SetCork_empty_encoding_reads_absent
    (k : Keeper) (ctx : Context) (val : sdk.ValAddress) (cork : types.Cork) :
  MustMarshal (cdc k) cork = [] →
  HasCorkForContract k (SetCork k ctx val cork) val
    (common.HexToAddress (types.Address cork)) = true
  ∧ GetCork k (SetCork k ctx val cork) val (common.HexToAddress (types.Address cork))
    = Ok (types.emptyCork, false).
Proof.
  intros Hempty. split.
  - unfold HasCorkForContract, KVHas, SetCork, KVSet. cbn [KVStore withStore].
    rewrite lookup_insert_eq. by apply bool_decide_eq_true_2.
  - unfold GetCork, SetCork. rewrite KVGet_KVSet_eq, Hempty. done.
Qed.

Lemma SetCork_empty_encoding_reads_absent_witness :
  HasCorkForContract {| cdc := compact.cdc; stakingKeeper := tableStaking 100 [] |}
    (SetCork {| cdc := compact.cdc; stakingKeeper := tableStaking 100 [] |}
       (emptyContext 7) valA types.emptyCork)
    valA (common.HexToAddress (types.Address types.emptyCork)) = true
  ∧ GetCork {| cdc := compact.cdc; stakingKeeper := tableStaking 100 [] |}
      (SetCork {| cdc := compact.cdc; stakingKeeper := tableStaking 100 [] |}
         (emptyContext 7) valA types.emptyCork)
      valA (common.HexToAddress (types.Address types.emptyCork))
    = Ok (types.emptyCork, false).
Proof.
  refine (SetCork_empty_encoding_reads_absent
            {| cdc := compact.cdc; stakingKeeper := tableStaking 100 [] |}
            (emptyContext 7) valA types.emptyCork _).
  reflexivity.
Defined.

(** ** More on genesis *)

Lemma importCork_nil k ctx vc :
  types.vcCork vc = None → panics (importCork k ctx vc).
Proof.
  unfold importCork. intros Hnil. destruct (sdk.ValAddressFromHex _) as [valAddr err].
  destruct err; [by eexists|]. rewrite Hnil. by eexists.
Qed.

Lemma importScheduledCork_nil k ctx sc :
  types.scCork sc = None → panics (importScheduledCork k ctx sc).
Proof.
  unfold importScheduledCork. intros Hnil.
  destruct (sdk.ValAddressFromHex _) as [valAddr err].
  destruct err; [by eexists|]. rewrite Hnil. by eexists.
Qed.

(** X14: [InitGenesis] dereferences the commitment of every entry, so a
    document with a pending or scheduled entry that carries no commitment
    makes it panic. *)
Theorem InitGenesis_nil_cork_panics
    (ctx : Context) (k : Keeper) (gs : types.GenesisState) :
  (∃ vc, vc ∈ types.Corks gs ∧ types.vcCork vc = None)
  ∨ (∃ sc, sc ∈ types.ScheduledCorks gs ∧ types.scCork sc = None) →
  panics (InitGenesis ctx k gs).
Proof.
  intros Hbad. unfold InitGenesis.
  destruct (forEach (importCork k) _ _) as [ctx1|msg] eqn:Hfirst; [|by exists msg].
  cbn [mbind result_bind].
  destruct Hbad as [(vc & Hvc & Hnil)|(sc & Hsc & Hnil)].
  - exfalso.
    assert (panics (forEach (importCork k) (types.Corks gs)
              (SetLatestInvalidationNonce k
                 (SetCellarIDs k
                    (SetCommitPeriodStart k (setParams k ctx (types.gsParams gs))
                       (BlockHeight (setParams k ctx (types.gsParams gs))))
                    (types.CellarIds gs))
                 (types.InvalidationNonce gs)))) as [msg Hmsg].
    { apply forEach_panics. exists vc. split; [done|]. intros s'. by apply importCork_nil. }
    rewrite Hfirst in Hmsg. done.
  - apply forEach_panics. exists sc. split; [done|].
    intros s'. by apply importScheduledCork_nil.
Qed.

Definition genesisNilCork : types.GenesisState := {|
  types.gsParams := {| types.VotePeriod := 10; types.VoteThreshold := 660000000000000000 |};
  types.CellarIds := {| types.Ids := [] |};
  types.InvalidationNonce := 0;
  types.Corks := [];
  types.ScheduledCorks :=
    [ {| types.scValidator := hexA; types.scBlockHeight := 12; types.scCork := None |} ];
|}.

Lemma InitGenesis_nil_cork_panics_witness :
  panics (InitGenesis (emptyContext 7) keeperAB genesisNilCork).
Proof.
  apply (InitGenesis_nil_cork_panics (emptyContext 7) keeperAB genesisNilCork).
  right. eexists. split; [left|]. reflexivity.
Defined.

(** ** Iterating over the commitments *)

(** A handler that never stops, never fails and leaves the store alone:
    all it does is update its own variables from what it is called with. *)
Definition observing {S}
    (f : sdk.ValAddress → common.Address → types.Cork → S → S)
  : sdk.ValAddress → common.Address → types.Cork →
    Context → S → result (Context * S * bool) :=
  λ val cel cork ctx s, Ok (ctx, f val cel cork s, false).

(** The call an entry of the store gives rise to: the voter and the target
    read back from its key, and its decoded commitment. *)
Definition callOf (k : Keeper) (kv : bytes * bytes)
  : option (sdk.ValAddress * common.Address * types.Cork) :=
  match MustUnmarshal (cdc k) kv.2 with
  | Ok cork => Some (keyVoter kv.1, keyTarget kv.1, cork)
  | Panic _ => None
  end.

(** The calls of the stored commitments, in ascending key order. *)
Definition storedCalls (k : Keeper) (ctx : Context)
  : list (sdk.ValAddress * common.Address * types.Cork) :=
  omap (callOf k) (KVStorePrefixIterator ctx [types.CorkForAddressKeyPrefix]).

Lemma iterateCorksLoop_observing {S} (k : Keeper)
    (f : sdk.ValAddress → common.Address → types.Cork → S → S)
    (ctx : Context) (iter : list (bytes * bytes)) :
  ∀ s : S,
    (∀ kv, kv ∈ iter → KVStore ctx !! kv.1 = Some kv.2) →
    Forall (λ kv, returns (MustUnmarshal (cdc k) kv.2)) iter →
    iterateCorksLoop k (observing f) iter ctx s
    = Ok (ctx, foldl (λ s c, f c.1.1 c.1.2 c.2 s) s (omap (callOf k) iter))
    ∧ length (omap (callOf k) iter) = length iter.
Proof.
  induction iter as [|[key value] iter IH]; intros s Hlive Hall; [done|].
  apply Forall_cons in Hall as [[cork Hdec] Hall]. cbn [snd] in Hdec.
  assert (KVStore ctx !! key = Some value) as Hsome by (apply (Hlive (key, value)); left).
  destruct (IH (f (keyVoter key) (keyTarget key) cork s)) as [Hrun Hlen];
    [intros kv Hkv; apply Hlive; by right|done|].
  assert (callOf k (key, value) = Some (keyVoter key, keyTarget key, cork)) as Hcall
    by (unfold callOf; cbn [fst snd]; by rewrite Hdec).
  cbn [omap list_omap]. rewrite Hcall.
  cbn [foldl fst snd length]. split; [|f_equal; exact Hlen].
  cbn [iterateCorksLoop]. rewrite Hsome.
  fold (keyVoter key). fold (keyTarget key).
  rewrite Hdec. cbn [mbind result_bind]. unfold observing at 1.
  cbn [mbind result_bind]. exact Hrun.
Qed.

(** X15: when every pending entry decodes, [IterateCorks] with a handler
    that never stops, never fails and does not write to the store returns,
    leaves the store as it was, and has called the handler once for each
    stored entry, in ascending key order, with the voter and target read
    back from the entry's key and its decoded commitment; an entry that
    [GetCork] finds under a 20-byte voter and target is handed over as
    that very voter, target and commitment. *)
Theorem IterateCorks_visits_every_entry {S} (k : Keeper) (ctx : Context)
    (f : sdk.ValAddress → common.Address → types.Cork → S → S) (s0 : S) :
  (∀ key value, KVStore ctx !! key = Some value → isCorkKey key →
                returns (MustUnmarshal (cdc k) value)) →
  IterateCorks k ctx (observing f) s0
  = Ok (ctx, foldl (λ s c, f c.1.1 c.1.2 c.2 s) s0 (storedCalls k ctx))
  ∧ length (storedCalls k ctx)
    = length (KVStorePrefixIterator ctx [types.CorkForAddressKeyPrefix])
  ∧ (∀ val cel cork,
       (val, cel, cork) ∈ storedCalls k ctx
       ↔ ∃ key value, KVStore ctx !! key = Some value ∧ isCorkKey key
                      ∧ keyVoter key = val ∧ keyTarget key = cel
                      ∧ MustUnmarshal (cdc k) value = Ok cork)
  ∧ (∀ (val : sdk.ValAddress) (addr : common.Address) cork,
       length val = 20%nat → length addr = 20%nat →
       GetCork k ctx val addr = Ok (cork, true) → (val, addr, cork) ∈ storedCalls k ctx).
Proof.
  intros Hdecodes.
  destruct (iterateCorksLoop_observing k f ctx
              (KVStorePrefixIterator ctx [types.CorkForAddressKeyPrefix]) s0)
    as [Hrun Hlen].
  { intros [key value] Hin. by apply elem_of_KVStorePrefixIterator in Hin as [Hsome _]. }
  { apply Forall_forall. intros [key value] Hin.
    apply elem_of_KVStorePrefixIterator in Hin as [Hsome Hpfx]. by apply (Hdecodes key). }
  split; [exact Hrun|]. split; [exact Hlen|].
  assert (∀ val cel cork,
            (val, cel, cork) ∈ storedCalls k ctx
            ↔ ∃ key value, KVStore ctx !! key = Some value ∧ isCorkKey key
                           ∧ keyVoter key = val ∧ keyTarget key = cel
                           ∧ MustUnmarshal (cdc k) value = Ok cork) as Hstore.
  { intros val cel cork. unfold storedCalls. rewrite list_elem_of_omap. split.
    - intros ([key value] & Hin & Hcall).
      apply elem_of_KVStorePrefixIterator in Hin as [Hsome Hpfx].
      unfold callOf in Hcall. cbn [fst snd] in Hcall.
      destruct (MustUnmarshal (cdc k) value) as [cork'|] eqn:Hdec; [|done].
      injection Hcall as <- <- <-. by exists key, value.
    - intros (key & value & Hsome & Hpfx & <- & <- & Hdec). exists (key, value).
      split; [by apply elem_of_KVStorePrefixIterator|].
      unfold callOf. cbn [fst snd]. by rewrite Hdec. }
  split; [done|]. intros val addr cork Hval Haddr Hget. apply Hstore.
  unfold GetCork, KVGet in Hget.
  destruct (KVStore ctx !! types.GetCorkForValidatorAddressKey val addr) as [bz|] eqn:Hsome;
    [|done].
  cbn [default from_option id] in Hget.
  exists (types.GetCorkForValidatorAddressKey val addr), bz.
  split; [done|]. split; [done|].
  split; [by apply keyVoter_cork_key|]. split; [by apply keyTarget_cork_key|].
  destruct (bool_decide (length bz = 0%nat)); [done|].
  destruct (MustUnmarshal (cdc k) bz) as [cork'|]; [|done].
  cbn [mbind result_bind] in Hget. congruence.
Qed.

Lemma IterateCorks_visits_every_entry_witness :
  IterateCorks keeperAB contextAB (observing (λ _ _ _ (n : nat), S n)) 0%nat
  = Ok (contextAB, 2%nat)
  ∧ (valB, common.HexToAddress exampleAddrA, corkA) ∈ storedCalls keeperAB contextAB.
Proof.
  destruct (IterateCorks_visits_every_entry keeperAB contextAB (λ _ _ _ (n : nat), S n) 0%nat)
    as (Hrun & _ & _ & Hget).
  - intros key value Hsome Hpfx.
    assert ((key, value) ∈ KVStorePrefixIterator contextAB [types.CorkForAddressKeyPrefix])
      as Hin by (by apply elem_of_KVStorePrefixIterator).
    vm_compute in Hin.
    apply elem_of_cons in Hin as [[= -> ->]|Hin]; [eexists; vm_compute; reflexivity|].
    apply elem_of_cons in Hin as [[= -> ->]|Hin]; [eexists; vm_compute; reflexivity|].
    by apply elem_of_nil in Hin.
  - split.
    + rewrite Hrun. vm_compute. reflexivity.
    + apply Hget.
      * reflexivity.
      * reflexivity.
      * vm_compute. reflexivity.
Defined.

(** The loop of [IterateAddressCorks], as the source writes it a second
    time. *)
Fixpoint iterateAddressCorksLoop {S}
    (handler : common.Address → S → S * bool)
    (iter : list (bytes * bytes)) (seenAddresses : gset bytes) (s : S) : S :=
  match iter with
  | [] => s
  | (key, _) :: rest =>
      let keyPair := gobytes.TrimPrefix key [types.CorkForAddressKeyPrefix] in
      let address := common.BytesToAddress (drop 20 keyPair) in
      if bool_decide (address ∈ seenAddresses)
      then iterateAddressCorksLoop handler rest seenAddresses s
      else
        let seenAddresses := {[address]} ∪ seenAddresses in
        let '(s', stop) := handler address s in
        if stop : bool then s'
        else iterateAddressCorksLoop handler rest seenAddresses s'
  end.

Definition IterateAddressCorks {S} (k : Keeper) (ctx : Context)
    (handler : common.Address → S → S * bool) (s : S) : S :=
  iterateAddressCorksLoop handler
    (KVStorePrefixIterator ctx [types.CorkForAddressKeyPrefix]) ∅ s.

Lemma iterateAddressCorksLoop_eq {S} (handler : common.Address → S → S * bool)
    (iter : list (bytes * bytes)) :
  ∀ seen s,
    iterateAddressCorksLoop handler iter seen s
    = iterateCorkAddressesLoop handler iter seen s.
Proof.
  induction iter as [|[key value] iter IH]; intros seen s; [done|].
  cbn [iterateAddressCorksLoop iterateCorkAddressesLoop].
  destruct (bool_decide _); [apply IH|].
  destruct (handler _ s) as [s' stop]. destruct stop; [done|apply IH].
Qed.

(** X16: [IterateAddressCorks], whose comment promises the corks of an
    address, hands its handler addresses only: it computes what
    [IterateCorkAddresses] computes, so each distinct target once and never
    a commitment. *)
Theorem IterateAddressCorks_is_IterateCorkAddresses {S} (k : Keeper) (ctx : Context)
    (handler : common.Address → S → S * bool) (s0 : S) :
  IterateAddressCorks k ctx handler s0 = IterateCorkAddresses k ctx handler s0
  ∧ NoDup (IterateAddressCorks k ctx (recording handler) (s0, [])).2
  ∧ (∀ a, a ∈ (IterateAddressCorks k ctx (recording handler) (s0, [])).2 →
       ∃ key value, KVStore ctx !! key = Some value ∧ isCorkKey key ∧ keyTarget key = a).
Proof.
  split; [apply iterateAddressCorksLoop_eq|].
  unfold IterateAddressCorks. rewrite iterateAddressCorksLoop_eq.
  destruct (iterateCorkAddressesLoop_recording handler
              (KVStorePrefixIterator ctx [types.CorkForAddressKeyPrefix]) ∅ s0 [])
    as (new & Htrace & _ & Hnodup & Hnew & _).
  rewrite Htrace, app_nil_l. split; [done|].
  intros a Ha. destruct (Hnew a Ha) as (_ & [key value] & Hkv & Heq).
  apply elem_of_KVStorePrefixIterator in Hkv as [Hsome Hpfx]. by exists key, value.
Qed.
